(** * MaixCamReceiver: framed serial protocol receiver

    A shallow embedding of [src/main.py] (class [MaixCamReceiver]): the
    CRC-8 table and checksum, the fixed-layout payload decoding, the
    consume-on-read slot and the byte-driven synchronisation loop.

    Python [bytes] objects are lists of [byte]; Python integers are [Z]
    (lengths and the loop phase are [nat]).  Console output ([print], guarded
    by [debug] or not) has no effect on the receiver and is left out. *)

From Stdlib Require Import ZArith List Bool Lia Arith.
From Stdlib Require Import Strings.Byte.
Import ListNotations.

Set Implicit Arguments.

(** ** Bytes *)

Definition byte_to_Z (b : byte) : Z := Z.of_N (Byte.to_N b).

(** Equality of two [bytes] objects ([==] on [bytes]). *)
Fixpoint bytes_eqb (a b : list byte) : bool :=
  match a, b with
  | [], [] => true
  | x :: a', y :: b' => Byte.eqb x y && bytes_eqb a' b'
  | _, _ => false
  end.

(** [data[-1]]: the last element, [IndexError] ([None]) on an empty object. *)
Definition index_last (data : list byte) : option byte :=
  nth_error data (length data - 1).

(** ** Protocol constants (class attributes) *)

Definition _SOF : list byte := [xaa; x55].
Definition _EOF : list byte := [x55; xaa].
(** [struct.calcsize('<4HQ')]: four unsigned shorts and one unsigned long
    long, little-endian, no padding. *)
Definition _PAYLOAD_SIZE : nat := 4 * 2 + 8.
Definition _CHECKSUM_SIZE : nat := 1.
Definition _EXPECTED_PACKET_LEN : nat := _PAYLOAD_SIZE + _CHECKSUM_SIZE.

Definition _CRC8_TABLE : list Z := [
    0x00; 0x07; 0x0e; 0x09; 0x1c; 0x1b; 0x12; 0x15; 0x38; 0x3f; 0x36; 0x31; 0x24; 0x23; 0x2a; 0x2d;
    0x70; 0x77; 0x7e; 0x79; 0x6c; 0x6b; 0x62; 0x65; 0x48; 0x4f; 0x46; 0x41; 0x54; 0x53; 0x5a; 0x5d;
    0xe0; 0xe7; 0xee; 0xe9; 0xfc; 0xfb; 0xf2; 0xf5; 0xd8; 0xdf; 0xd6; 0xd1; 0xc4; 0xc3; 0xca; 0xcd;
    0x90; 0x97; 0x9e; 0x99; 0x8c; 0x8b; 0x82; 0x85; 0xa8; 0xaf; 0xa6; 0xa1; 0xb4; 0xb3; 0xba; 0xbd;
    0xc7; 0xc0; 0xc9; 0xce; 0xdb; 0xdc; 0xd5; 0xd2; 0xff; 0xf8; 0xf1; 0xf6; 0xe3; 0xe4; 0xed; 0xea;
    0xb7; 0xb0; 0xb9; 0xbe; 0xab; 0xac; 0xa5; 0xa2; 0x8f; 0x88; 0x81; 0x86; 0x93; 0x94; 0x9d; 0x9a;
    0x27; 0x20; 0x29; 0x2e; 0x3b; 0x3c; 0x35; 0x32; 0x1f; 0x18; 0x11; 0x16; 0x03; 0x04; 0x0d; 0x0a;
    0x57; 0x50; 0x59; 0x5e; 0x4b; 0x4c; 0x45; 0x42; 0x6f; 0x68; 0x61; 0x66; 0x73; 0x74; 0x7d; 0x7a;
    0x89; 0x8e; 0x87; 0x80; 0x95; 0x92; 0x9b; 0x9c; 0xb1; 0xb6; 0xbf; 0xb8; 0xad; 0xaa; 0xa3; 0xa4;
    0xf9; 0xfe; 0xf7; 0xf0; 0xe5; 0xe2; 0xeb; 0xec; 0xc1; 0xc6; 0xcf; 0xc8; 0xdd; 0xda; 0xd3; 0xd4;
    0x69; 0x6e; 0x67; 0x60; 0x75; 0x72; 0x7b; 0x7c; 0x51; 0x56; 0x5f; 0x58; 0x4d; 0x4a; 0x43; 0x44;
    0x19; 0x1e; 0x17; 0x10; 0x05; 0x02; 0x0b; 0x0c; 0x21; 0x26; 0x2f; 0x28; 0x3d; 0x3a; 0x33; 0x34;
    0x4e; 0x49; 0x40; 0x47; 0x52; 0x55; 0x5c; 0x5b; 0x76; 0x71; 0x78; 0x7f; 0x6a; 0x6d; 0x64; 0x63;
    0x3e; 0x39; 0x30; 0x37; 0x22; 0x25; 0x2c; 0x2b; 0x06; 0x01; 0x08; 0x0f; 0x1a; 0x1d; 0x14; 0x13;
    0xae; 0xa9; 0xa0; 0xa7; 0xb2; 0xb5; 0xbc; 0xbb; 0x96; 0x91; 0x98; 0x9f; 0x8a; 0x8d; 0x84; 0x83;
    0xde; 0xd9; 0xd0; 0xd7; 0xc2; 0xc5; 0xcc; 0xcb; 0xe6; 0xe1; 0xe8; 0xef; 0xfa; 0xfd; 0xf4; 0xf3
  ]%Z.

(** ** Checksum *)

(** [_calculate_crc8]: [crc = 0; for byte in data_bytes: crc = TABLE[crc ^ byte]].
    The index is always inside the table (lemma [crc8_index_in_table]), so
    the default of [nth] is never taken. *)
Definition crc8_step (crc : Z) (b : byte) : Z :=
  nth (Z.to_nat (Z.lxor crc (byte_to_Z b))) _CRC8_TABLE 0%Z.

Definition _calculate_crc8 (data_bytes : list byte) : Z :=
  fold_left crc8_step data_bytes 0%Z.

(** ** Payload decoding: [struct.unpack('<4HQ', payload)] *)

(** A little-endian unsigned integer, least significant byte first. *)
Fixpoint from_le (bs : list byte) : Z :=
  match bs with
  | [] => 0
  | b :: rest => byte_to_Z b + 256 * from_le rest
  end%Z.

(** [struct.unpack] raises [struct.error] ([None]) unless the buffer has
    exactly [calcsize] bytes. *)
Definition struct_unpack (buf : list byte) : option (Z * Z * Z * Z * Z) :=
  if length buf =? _PAYLOAD_SIZE then
    Some (from_le (firstn 2 buf),
          from_le (firstn 2 (skipn 2 buf)),
          from_le (firstn 2 (skipn 4 buf)),
          from_le (firstn 2 (skipn 6 buf)),
          from_le (skipn 8 buf))
  else None.

(** The dictionary stored in [latest_data]. *)
Record data : Type := mk_data {
  x : Z; y : Z; w : Z; h : Z; timestamp : Z
}.

Definition data_of_tuple (u : Z * Z * Z * Z * Z) : data :=
  let '(u0, u1, u2, u3, u4) := u in
  {| x := u0; y := u1; w := u2; h := u3; timestamp := u4 |}.

(** ** Exceptions and the transport *)

Inductive exn : Type :=
| SerialException   (* serial.SerialException *)
| Exception.        (* any other Exception *)

Inductive outcome (A : Type) : Type :=
| Normal (a : A)
| Raise (e : exn).
Arguments Raise {A} e.

(** The duck-typed serial object: all the loop uses is [read(size)], which
    returns at most [size] bytes (fewer on a timeout) or raises. *)
Class Transport (T : Type) : Type :=
  ser_read : nat -> T -> outcome (list byte) * T.

(** ** The receiver object *)

(** The attributes of a [MaixCamReceiver] that the receive path uses.
    [port], [baudrate], [debug] and [thread] play no part in decoding; the
    lock is treated in section [Locking] below. *)
Record MaixCamReceiver (T : Type) : Type := mk_receiver {
  ser : T;
  is_running : bool;
  latest_data : option data
}.

(** The state of a run of [_read_loop]: the object, the local variable
    [sync_state], and a history variable [written] that lists, oldest first,
    every dictionary the loop has assigned to [latest_data]. *)
Record loop_state (T : Type) : Type := mk_loop {
  self : MaixCamReceiver T;
  sync_state : nat;
  written : list data
}.

(** The object as [__init__] followed by a successful [start] leaves it,
    with [t] the serial port that [start] opened. *)
Definition started {T : Type} (t : T) : MaixCamReceiver T :=
  {| ser := t; is_running := true; latest_data := None |}.

(** [get_latest_data]: return the slot and clear it. *)
Definition get_latest_data {T : Type} (rcv : MaixCamReceiver T)
  : option data * MaixCamReceiver T :=
  let data_to_return := latest_data rcv in
  (data_to_return,
   {| ser := ser rcv; is_running := is_running rcv; latest_data := None |}).

(** ** The loop body as a state-and-exception computation *)

Section ReadLoop.
Context {T : Type} {transport : Transport T}.

Definition M (A : Type) : Type := loop_state T -> outcome A * loop_state T.

Definition ret {A : Type} (a : A) : M A := fun s => (Normal a, s).

Definition bind {A B : Type} (c : M A) (k : A -> M B) : M B :=
  fun s => match c s with
           | (Normal a, s') => k a s'
           | (Raise e, s') => (Raise e, s')
           end.

Definition raise {A : Type} (e : exn) : M A := fun s => (Raise e, s).

(** [self.ser.read(size)] *)
Definition read (size : nat) : M (list byte) :=
  fun s =>
    let (r, t') := ser_read size (ser (self s)) in
    (r, {| self := {| ser := t';
                      is_running := is_running (self s);
                      latest_data := latest_data (self s) |};
           sync_state := sync_state s;
           written := written s |}).

Definition get_sync_state : M nat := fun s => (Normal (sync_state s), s).

Definition set_sync_state (k : nat) : M unit :=
  fun s => (Normal tt, {| self := self s; sync_state := k;
                          written := written s |}).

(** [with self.lock: self.latest_data = d] *)
Definition store (d : data) : M unit :=
  fun s => (Normal tt,
            {| self := {| ser := ser (self s);
                          is_running := is_running (self s);
                          latest_data := Some d |};
               sync_state := sync_state s;
               written := written s ++ [d] |}).

(** Python operations that raise: the exception is an ordinary
    [Exception] for the handlers of the loop. *)
Definition or_raise {A : Type} (o : option A) : M A :=
  match o with
  | Some a => ret a
  | None => raise Exception
  end.

End ReadLoop.

Declare Scope recv_scope.
Delimit Scope recv_scope with recv.
Notation "x <- c ;; k" := (bind c (fun x => k))
  (at level 61, c at next level, right associativity) : recv_scope.
Notation "c ;; k" := (bind c (fun _ => k))
  (at level 61, right associativity) : recv_scope.

Section ReadLoopBody.
Context {T : Type} {transport : Transport T}.
Local Open Scope recv_scope.

(** The statements between [try:] and the handlers.  Every [continue]
    is the last statement executed in its branch, so it is the end of
    the computation. *)
Definition try_body : M (T := T) unit :=
  st <- get_sync_state ;;
  (if st =? 0 then
     byte <- read 1 ;;
     if bytes_eqb byte (firstn 1 _SOF) then set_sync_state 1 else ret tt
   else if st =? 1 then
     byte <- read 1 ;;
     if bytes_eqb byte (skipn 1 _SOF) then set_sync_state 2
     else set_sync_state 0
   else ret tt) ;;
  st <- get_sync_state ;;
  if st =? 2 then
    len_byte <- read 1 ;;
    match len_byte with
    | [] => set_sync_state 0
    | b0 :: _ =>
      let packet_len := Byte.to_nat b0 in
      if negb (packet_len =? _EXPECTED_PACKET_LEN) then set_sync_state 0
      else
        full_packet_data <- read (packet_len + length _EOF) ;;
        if negb (length full_packet_data =? packet_len + length _EOF)
        then set_sync_state 0
        else
          let packet_data := firstn packet_len full_packet_data in
          let eof_data := skipn packet_len full_packet_data in
          if negb (bytes_eqb eof_data _EOF) then set_sync_state 0
          else
            let payload_bytes := removelast packet_data in
            received_checksum <- or_raise (index_last packet_data) ;;
            let calculated_checksum := _calculate_crc8 payload_bytes in
            (if (byte_to_Z received_checksum =? calculated_checksum)%Z
             then
               unpacked_data <- or_raise (struct_unpack payload_bytes) ;;
               store (data_of_tuple unpacked_data)
             else ret tt) ;;
            set_sync_state 0
    end
  else ret tt.

(** One pass through the body of [while self.is_running], handlers
    included: [SerialException] clears [is_running], any other
    [Exception] is only reported. *)
Definition loop_iteration (s : loop_state T) : loop_state T :=
  match try_body s with
  | (Normal _, s') => s'
  | (Raise SerialException, s') =>
      {| self := {| ser := ser (self s');
                    is_running := false;
                    latest_data := latest_data (self s') |};
         sync_state := sync_state s';
         written := written s' |}
  | (Raise Exception, s') => s'
  end.

(** At most [n] passes of [while self.is_running]. *)
Fixpoint while_running (n : nat) (s : loop_state T) : loop_state T :=
  match n with
  | 0 => s
  | S n' => if is_running (self s)
            then while_running n' (loop_iteration s)
            else s
  end.

(** [_read_loop], observed after at most [n] passes: [sync_state = 0]
    on entry. *)
Definition _read_loop (n : nat) (rcv : MaixCamReceiver T) : loop_state T :=
  while_running n {| self := rcv; sync_state := 0; written := [] |}.

End ReadLoopBody.

(** ** A serial line as a sequence of events *)

(** What the port delivers, in order: a byte, a read timeout expiring, the
    device disappearing ([SerialException]), or a failure of another kind
    inside [read]. *)
Inductive event : Type :=
| Rx (b : byte)
| Timeout
| Disconnect
| Fault.

(** [read(size)] on such a line: collect bytes until [size] are there or a
    timeout expires; an exhausted line delivers nothing more, so every read
    times out. *)
Fixpoint wire_read (size : nat) (t : list event)
  : outcome (list byte) * list event :=
  match size with
  | 0 => (Normal [], t)
  | S size' =>
    match t with
    | [] => (Normal [], [])
    | Rx b :: t' =>
        match wire_read size' t' with
        | (Normal bs, t'') => (Normal (b :: bs), t'')
        | (Raise e, t'') => (Raise e, t'')
        end
    | Timeout :: t' => (Normal [], t')
    | Disconnect :: t' => (Raise SerialException, t')
    | Fault :: t' => (Raise Exception, t')
    end
  end.

#[export] Instance wire_transport : Transport (list event) := wire_read.

(** The line on which exactly the bytes [bs] arrive. *)
Definition feed (bs : list byte) : list event := map Rx bs.

(** ** The sender's side of the wire format

    The device that sends the frames is not part of this program.  These
    definitions lay a frame out as the wire format prescribes, so that
    statements about "a valid frame" have a subject: [struct_pack] is
    [struct.pack('<4HQ', x, y, w, h, timestamp)], the inverse of the
    [struct.unpack] call of the loop. *)

Definition byte_of_Z (z : Z) : byte :=
  match Byte.of_N (Z.to_N (z mod 256)) with
  | Some b => b
  | None => x00
  end.

Fixpoint to_le (n : nat) (z : Z) : list byte :=
  match n with
  | 0 => []
  | S n' => byte_of_Z z :: to_le n' (z / 256)
  end.

Definition struct_pack (d : data) : list byte :=
  to_le 2 (x d) ++ to_le 2 (y d) ++ to_le 2 (w d) ++ to_le 2 (h d)
  ++ to_le 8 (timestamp d).

(** Start marker, length byte 17, payload, checksum byte, end marker. *)
Definition frame (payload : list byte) (checksum : byte) : list byte :=
  [xaa; x55] ++ [x11] ++ payload ++ [checksum] ++ [x55; xaa].

Definition valid_frame (payload : list byte) : list byte :=
  frame payload (byte_of_Z (_calculate_crc8 payload)).

Definition encode (d : data) : list byte := valid_frame (struct_pack d).

Definition u16 (z : Z) : Prop := (0 <= z < 2 ^ 16)%Z.
Definition u64 (z : Z) : Prop := (0 <= z < 2 ^ 64)%Z.
Definition in_range (d : data) : Prop :=
  u16 (x d) /\ u16 (y d) /\ u16 (w d) /\ u16 (h d) /\ u64 (timestamp d).

(** The record of the worked example: x=100, y=200, w=50, h=60,
    timestamp=1700000000000. *)
Definition example_record : data :=
  {| x := 100; y := 200; w := 50; h := 60; timestamp := 1700000000000 |}%Z.

(** ** Predicates on byte strings and lines used in the statements *)

(** No start marker inside [g]: nowhere is [0xAA] directly followed by
    [0x55]. *)
Fixpoint no_sof (g : list byte) : bool :=
  match g with
  | a :: ((b :: _) as rest) =>
      negb (Byte.eqb a xaa && Byte.eqb b x55) && no_sof rest
  | _ => true
  end.

(** No disconnect among the events [a]. *)
Definition no_disconnect (a : list event) : bool :=
  forallb (fun e => match e with Disconnect => false | _ => true end) a.

(** A list of integers without repetition. *)
Fixpoint nodupb (l : list Z) : bool :=
  match l with
  | [] => true
  | a :: r => negb (existsb (Z.eqb a) r) && nodupb r
  end.

(** * Locking: the slot between the two threads

    The loop thread and the calling thread share [latest_data] and touch
    it only inside [with self.lock].  The two blocks are modelled statement
    by statement, the lock included, and the threads are interleaved by an
    arbitrary schedule.  Everything else the loop does (reading, checking,
    decoding) is private to its thread and is left out here: the loop
    arrives at its block with a record [d] it has validated. *)

Module Locking.

Inductive thread : Type := Loop | Caller.

(** Where the loop thread is in
    [with self.lock: self.latest_data = {...}]. *)
Inductive loop_pc : Type :=
| L_outside                 (* not in the block *)
| L_holding (d : data)      (* lock acquired, assignment pending *)
| L_assigned.               (* assigned, lock not yet released *)

(** Where the caller is in [get_latest_data]. *)
Inductive caller_pc : Type :=
| C_outside                     (* not in the block *)
| C_holding                     (* lock acquired *)
| C_read (v : option data)      (* data_to_return = self.latest_data *)
| C_cleared (v : option data).  (* self.latest_data = None *)

(** [stored] and [returned] are history variables: every record assigned
    to the slot, newest first, and every value [get_latest_data] has
    returned, each with [stored] as it was at the return. *)
Record world : Type := mk_world {
  lock : option thread;
  slot : option data;
  lpc : loop_pc;
  cpc : caller_pc;
  stored : list data;
  returned : list (option data * list data)
}.

Definition init : world :=
  {| lock := None; slot := None; lpc := L_outside; cpc := C_outside;
     stored := []; returned := [] |}.

(** What the scheduler picks: the loop thread takes its next step (with
    [d] the record it brings if it is about to enter its block), or the
    caller does. *)
Inductive move : Type :=
| Run_loop (d : data)
| Run_caller.

(** One step of the loop thread; [None] when it waits for the lock. *)
Definition step_loop (d : data) (w : world) : option world :=
  match lpc w with
  | L_outside =>
      match lock w with
      | None => Some (mk_world (Some Loop) (slot w) (L_holding d) (cpc w)
                               (stored w) (returned w))
      | Some _ => None
      end
  | L_holding d' =>
      Some (mk_world (lock w) (Some d') L_assigned (cpc w)
                     (d' :: stored w) (returned w))
  | L_assigned =>
      Some (mk_world None (slot w) L_outside (cpc w)
                     (stored w) (returned w))
  end.

(** One step of the caller; [None] when it waits for the lock. *)
Definition step_caller (w : world) : option world :=
  match cpc w with
  | C_outside =>
      match lock w with
      | None => Some (mk_world (Some Caller) (slot w) (lpc w) C_holding
                               (stored w) (returned w))
      | Some _ => None
      end
  | C_holding =>
      Some (mk_world (lock w) (slot w) (lpc w) (C_read (slot w))
                     (stored w) (returned w))
  | C_read v =>
      Some (mk_world (lock w) None (lpc w) (C_cleared v)
                     (stored w) (returned w))
  | C_cleared v =>
      Some (mk_world None (slot w) (lpc w) C_outside
                     (stored w) ((v, stored w) :: returned w))
  end.

(** A thread that waits leaves the world as it is. *)
Definition step (m : move) (w : world) : world :=
  match m with
  | Run_loop d => match step_loop d w with Some w' => w' | None => w end
  | Run_caller => match step_caller w with Some w' => w' | None => w end
  end.

Definition run (schedule : list move) (w : world) : world :=
  fold_left (fun w m => step m w) schedule w.

Definition loop_inside (w : world) : bool :=
  match lpc w with L_outside => false | _ => true end.

Definition caller_inside (w : world) : bool :=
  match cpc w with C_outside => false | _ => true end.

(** The value is nothing, or the newest record of the history. *)
Definition newest_or_none (v : option data) (hist : list data) : Prop :=
  v = None \/ exists d older, v = Some d /\ hist = d :: older.

(** What holds in every world the two threads can reach. *)
Record invariant (w : world) : Prop := mk_invariant {
  inv_lock_loop : lock w = Some Loop <-> loop_inside w = true;
  inv_lock_caller : lock w = Some Caller <-> caller_inside w = true;
  inv_slot : newest_or_none (slot w) (stored w);
  inv_caller :
    match cpc w with
    | C_read v => v = slot w
    | C_cleared v => newest_or_none v (stored w)
    | _ => True
    end;
  inv_returned :
    Forall (fun r => newest_or_none (fst r) (snd r)) (returned w)
}.

End Locking.

(** ** Further notions used in the statements *)

(** No [0xAA] among the bytes [g]. *)
Definition no_aa (g : list byte) : bool :=
  forallb (fun b => negb (Byte.eqb b xaa)) g.

(** No failure other than a disconnect among the events [a]. *)
Definition no_fault (a : list event) : bool :=
  forallb (fun e => match e with Fault => false | _ => true end) a.

(** Bytewise exclusive or of two byte strings, as an error pattern laid
    over a message. *)
Definition byte_xor (a b : byte) : byte :=
  byte_of_Z (Z.lxor (byte_to_Z a) (byte_to_Z b)).

Fixpoint xor_bytes (a b : list byte) : list byte :=
  match a, b with
  | x0 :: a', y0 :: b' => byte_xor x0 y0 :: xor_bytes a' b'
  | _, _ => []
  end.

(** How many of the values returned by [get_latest_data] were records. *)
Fixpoint delivered (r : list (option data * list data)) : nat :=
  match r with
  | [] => 0
  | (Some _, _) :: r' => S (delivered r')
  | (None, _) :: r' => delivered r'
  end.

(** The record, if any, that is in the slot or on its way out of
    [get_latest_data]. *)
Definition pending (w : Locking.world) : nat :=
  match Locking.cpc w with
  | Locking.C_cleared (Some _) => 1
  | Locking.C_cleared None => 0
  | _ => match Locking.slot w with Some _ => 1 | None => 0 end
  end.

(** Records handed out, plus the one in the slot or on its way out, never
    exceed the records stored; and the slot is empty while the caller is
    about to return. *)
Definition accounted (w : Locking.world) : Prop :=
  delivered (Locking.returned w) + pending w <= length (Locking.stored w) /\
  (forall v, Locking.cpc w = Locking.C_cleared v -> Locking.slot w = None).

(** All of a loop state that decoding depends on or changes, the slot
    left aside: the line, the running flag, the phase and the history. *)
Definition decoder_view {T : Type} (s : loop_state T)
  : T * bool * nat * list data :=
  (ser (self s), is_running (self s), sync_state s, written s).

(** ** The marker search over bytes that complete no start marker *)

(** The phase after one more such byte (lines 111-120 with the second
    check failing): [0xAA] read at phase 0 leads to phase 1, every other
    case to phase 0. *)
Definition search_step (phase : nat) (b : byte) : nat :=
  if (phase =? 0) && Byte.eqb b xaa then 1 else 0.

Definition search_phase (phase : nat) (g : list byte) : nat :=
  fold_left search_step g phase.

(** The number of [0xAA] bytes at the front of [l], and at the end of
    [g]. *)
Fixpoint leading_aa (l : list byte) : nat :=
  match l with
  | b :: rest => if Byte.eqb b xaa then S (leading_aa rest) else 0
  | [] => 0
  end.

Definition trailing_aa (g : list byte) : nat := leading_aa (rev g).

(** * Properties *)

(** ** Bytes *)

Lemma byte_to_Z_range (b : byte) : (0 <= byte_to_Z b < 256)%Z.
Proof.
  unfold byte_to_Z. pose proof (Byte.to_N_bounded b). lia.
Qed.

Lemma byte_to_of_Z (z : Z) : byte_to_Z (byte_of_Z z) = (z mod 256)%Z.
Proof.
  unfold byte_of_Z, byte_to_Z.
  assert (Hr : (0 <= z mod 256 < 256)%Z) by (apply Z.mod_pos_bound; lia).
  destruct (Byte.of_N (Z.to_N (z mod 256))) as [b|] eqn:E.
  - apply Byte.to_of_N in E. rewrite E. lia.
  - apply Byte.of_N_None_iff in E. lia.
Qed.

Lemma byte_of_to_Z (b : byte) : byte_of_Z (byte_to_Z b) = b.
Proof.
  unfold byte_of_Z. pose proof (byte_to_Z_range b) as Hr.
  rewrite Z.mod_small by exact Hr.
  unfold byte_to_Z. rewrite N2Z.id, Byte.of_to_N. reflexivity.
Qed.

Lemma byte_eqb_refl (b : byte) : Byte.eqb b b = true.
Proof. apply Byte.byte_dec_lb. reflexivity. Qed.

Lemma bytes_eqb_eq (a b : list byte) : bytes_eqb a b = true <-> a = b.
Proof.
  revert b. induction a as [|x0 a IH]; intros [|y0 b]; simpl;
    try (split; [discriminate | congruence]); try tauto.
  rewrite andb_true_iff, IH. split.
  - intros [Hx ->]. apply Byte.byte_dec_bl in Hx. now subst.
  - intros E. injection E as -> ->. split; [apply byte_eqb_refl | reflexivity].
Qed.

Lemma bytes_eqb_refl (a : list byte) : bytes_eqb a a = true.
Proof. now apply bytes_eqb_eq. Qed.

Lemma bytes_eqb_neq (a b : list byte) : a <> b -> bytes_eqb a b = false.
Proof.
  intros Hn. destruct (bytes_eqb a b) eqn:E; [|reflexivity].
  apply bytes_eqb_eq in E. contradiction.
Qed.

(** ** Checksum: the table lookup never leaves the table *)

Lemma table_length : length _CRC8_TABLE = 256.
Proof. reflexivity. Qed.

Lemma table_entries : Forall (fun v => (0 <= v < 256)%Z) _CRC8_TABLE.
Proof.
  apply Forall_forall. intros v Hv.
  assert (Hb : forallb (fun v => (0 <=? v)%Z && (v <? 256)%Z) _CRC8_TABLE = true)
    by (vm_compute; reflexivity).
  rewrite forallb_forall in Hb. specialize (Hb v Hv). lia.
Qed.

Lemma lxor_byte_range (a b : Z) :
  (0 <= a < 256 -> 0 <= b < 256 -> 0 <= Z.lxor a b < 256)%Z.
Proof.
  intros Ha Hb. split.
  - apply Z.lxor_nonneg. lia.
  - destruct (Z.eq_dec (Z.lxor a b) 0) as [E|E]; [lia|].
    assert (Hpos : (0 < Z.lxor a b)%Z).
    { assert (0 <= Z.lxor a b)%Z by (apply Z.lxor_nonneg; lia). lia. }
    apply (Z.log2_lt_pow2 _ 8 Hpos).
    pose proof (Z.log2_lxor a b (proj1 Ha) (proj1 Hb)) as Hl.
    assert (Z.log2 a < 8)%Z.
    { destruct (Z.eq_dec a 0) as [->|]; [simpl; lia|].
      apply Z.log2_lt_pow2; lia. }
    assert (Z.log2 b < 8)%Z.
    { destruct (Z.eq_dec b 0) as [->|]; [simpl; lia|].
      apply Z.log2_lt_pow2; lia. }
    lia.
Qed.

(** The index [crc ^ byte] is a valid position of the table: the lookup
    cannot raise [IndexError]. *)
Lemma crc8_index_in_table (crc : Z) (b : byte) :
  (0 <= crc < 256)%Z ->
  (Z.to_nat (Z.lxor crc (byte_to_Z b)) < length _CRC8_TABLE)%nat.
Proof.
  intros Hc. pose proof (lxor_byte_range Hc (byte_to_Z_range b)).
  rewrite table_length. lia.
Qed.

Lemma crc8_step_range (crc : Z) (b : byte) :
  (0 <= crc < 256)%Z -> (0 <= crc8_step crc b < 256)%Z.
Proof.
  intros Hc. unfold crc8_step.
  pose proof table_entries as Ht. rewrite Forall_forall in Ht.
  apply Ht, nth_In, crc8_index_in_table, Hc.
Qed.

Lemma crc8_fold_range (l : list byte) (crc : Z) :
  (0 <= crc < 256)%Z -> (0 <= fold_left crc8_step l crc < 256)%Z.
Proof.
  revert crc. induction l as [|b l IH]; intros crc Hc; simpl.
  - exact Hc.
  - apply IH, crc8_step_range, Hc.
Qed.

Lemma crc8_range (l : list byte) : (0 <= _calculate_crc8 l < 256)%Z.
Proof. apply crc8_fold_range. lia. Qed.

Lemma crc8_byte (l : list byte) :
  byte_to_Z (byte_of_Z (_calculate_crc8 l)) = _calculate_crc8 l.
Proof.
  rewrite byte_to_of_Z. apply Z.mod_small, crc8_range.
Qed.

(** ** Payload layout: unpacking inverts packing *)

Lemma to_le_length (n : nat) (z : Z) : length (to_le n z) = n.
Proof. revert z. induction n; intros; simpl; auto. Qed.

Lemma from_to_le (n : nat) (z : Z) :
  (0 <= z < 256 ^ Z.of_nat n)%Z -> from_le (to_le n z) = z.
Proof.
  revert z. induction n as [|n IH]; intros z Hz.
  - simpl in *. lia.
  - cbn [to_le from_le]. rewrite byte_to_of_Z, IH.
    + pose proof (Z.div_mod z 256). lia.
    + rewrite Nat2Z.inj_succ, Z.pow_succ_r in Hz by lia.
      split; [apply Z.div_pos; lia|].
      apply Z.div_lt_upper_bound; lia.
Qed.

Lemma struct_pack_length (d : data) : length (struct_pack d) = _PAYLOAD_SIZE.
Proof.
  unfold struct_pack. rewrite !length_app, !to_le_length. reflexivity.
Qed.

Lemma struct_unpack_pack (d : data) :
  in_range d -> option_map data_of_tuple (struct_unpack (struct_pack d)) = Some d.
Proof.
  intros (Hx & Hy & Hw & Hh & Ht). unfold u16, u64 in *.
  unfold struct_unpack. rewrite struct_pack_length, Nat.eqb_refl.
  destruct d as [dx dy dw dh dt]. cbn [x y w h timestamp] in *.
  unfold struct_pack. cbn [x y w h timestamp].
  cbn [to_le app firstn skipn option_map data_of_tuple].
  change (byte_of_Z dt :: ?l) with (to_le 8 dt).
  change (byte_of_Z dx :: ?l) with (to_le 2 dx).
  change (byte_of_Z dy :: ?l) with (to_le 2 dy).
  change (byte_of_Z dw :: ?l) with (to_le 2 dw).
  change (byte_of_Z dh :: ?l) with (to_le 2 dh).
  rewrite !from_to_le by (simpl; lia). reflexivity.
Qed.

(** Any sixteen bytes are a payload. *)
Lemma struct_unpack_total (p : list byte) :
  length p = _PAYLOAD_SIZE -> exists u, struct_unpack p = Some u.
Proof.
  intros Hp. unfold struct_unpack. rewrite Hp, Nat.eqb_refl. eauto.
Qed.

(** ** Reading from an event line *)

Lemma wire_read_feed (l : list byte) (t : list event) :
  wire_read (length l) (feed l ++ t) = (Normal l, t).
Proof.
  unfold feed. induction l as [|b l IH]; simpl.
  - reflexivity.
  - rewrite IH. reflexivity.
Qed.

Lemma wire_read_exhausted (size : nat) :
  wire_read (S size) [] = (Normal [], []).
Proof. reflexivity. Qed.

(** A list of known length, spelled out element by element. *)
Ltac spell_out p H :=
  repeat (destruct p as [|? p]; [discriminate H|]);
  destruct p; [clear H | discriminate H].

Ltac open_body :=
  unfold loop_iteration, try_body, bind, get_sync_state, set_sync_state,
    read, store, or_raise, ret, raise, ser_read, wire_transport.

(** Marker bytes are symbolic: keep the byte comparison folded. *)
Ltac run_search := open_body; cbn -[Byte.eqb].

(** Marker and length bytes are literal: let the comparisons compute. *)
Ltac run_body := open_body; cbn -[_calculate_crc8 struct_unpack byte_to_Z].

(** ** Single passes on an event line *)

Section WirePasses.
Variables (t : list event) (run : bool) (slot : option data)
          (wr : list data).

(** Awaiting the first marker byte: one byte is consumed; only [0xAA]
    advances. *)
Lemma pass_seek_first (b : byte) :
  loop_iteration (mk_loop (mk_receiver (Rx b :: t) run slot) 0 wr)
  = mk_loop (mk_receiver t run slot) (if Byte.eqb b xaa then 1 else 0) wr.
Proof.
  run_search. destruct (Byte.eqb b xaa); reflexivity.
Qed.

(** Awaiting the second marker byte, and the line holds [0x55], the
    length byte 17, sixteen payload bytes, a checksum byte and the end
    marker: the whole frame is consumed in this pass. *)
Lemma pass_frame_good (p : list byte) (c : byte) (u : Z * Z * Z * Z * Z) :
  struct_unpack p = Some u ->
  byte_to_Z c = _calculate_crc8 p ->
  loop_iteration
    (mk_loop (mk_receiver (feed ([x55; x11] ++ p ++ [c] ++ [x55; xaa]) ++ t)
                          run slot) 1 wr)
  = mk_loop (mk_receiver t run (Some (data_of_tuple u))) 0
            (wr ++ [data_of_tuple u]).
Proof.
  intros Hu Hc.
  assert (Hp : length p = 16).
  { unfold struct_unpack in Hu.
    destruct (length p =? _PAYLOAD_SIZE) eqn:E; [|discriminate].
    apply Nat.eqb_eq in E. exact E. }
  spell_out p Hp. run_body.
  rewrite Hc, Z.eqb_refl, Hu. reflexivity.
Qed.

Lemma pass_frame_bad (p : list byte) (c : byte) :
  length p = 16 ->
  byte_to_Z c <> _calculate_crc8 p ->
  loop_iteration
    (mk_loop (mk_receiver (feed ([x55; x11] ++ p ++ [c] ++ [x55; xaa]) ++ t)
                          run slot) 1 wr)
  = mk_loop (mk_receiver t run slot) 0 wr.
Proof.
  intros Hp Hc. spell_out p Hp. run_body.
  apply Z.eqb_neq in Hc. rewrite Hc. reflexivity.
Qed.

End WirePasses.

(** ** Runs of the loop *)

Section Runs.
Context {T : Type} {transport : Transport T}.

Lemma while_running_stopped (n : nat) (s : loop_state T) :
  is_running (self s) = false -> while_running n s = s.
Proof. intros Hs. destruct n; simpl; [|rewrite Hs]; reflexivity. Qed.

Lemma while_running_add (n m : nat) (s : loop_state T) :
  while_running (n + m) s = while_running m (while_running n s).
Proof.
  revert s. induction n as [|n IH]; intros s; simpl.
  - reflexivity.
  - destruct (is_running (self s)) eqn:E.
    + apply IH.
    + symmetry. apply while_running_stopped, E.
Qed.

End Runs.

Section WireRuns.
Variables (t : list event) (slot : option data) (wr : list data).

(** Nothing arrives any more: every pass is a read that times out. *)
Lemma run_idle (n : nat) :
  while_running n (mk_loop (mk_receiver [] true slot) 0 wr)
  = mk_loop (mk_receiver [] true slot) 0 wr.
Proof. induction n as [|n IH]; simpl; [reflexivity | exact IH]. Qed.

(** A well-formed frame with the right checksum takes two passes and
    leaves its record in the slot. *)
Lemma run_valid_frame (p : list byte) (u : Z * Z * Z * Z * Z) (n : nat) :
  struct_unpack p = Some u ->
  while_running (2 + n)
    (mk_loop (mk_receiver (feed (valid_frame p) ++ t) true slot) 0 wr)
  = while_running n
      (mk_loop (mk_receiver t true (Some (data_of_tuple u))) 0
               (wr ++ [data_of_tuple u])).
Proof.
  intros Hu. unfold valid_frame, frame.
  change (feed ([xaa; x55] ++ [x11] ++ ?l) ++ t)
    with (Rx xaa :: feed ([x55; x11] ++ l) ++ t).
  change (2 + n) with (S (S n)).
  cbn [while_running self is_running].
  rewrite pass_seek_first. cbn [self is_running].
  change (if Byte.eqb xaa xaa then 1 else 0) with 1.
  rewrite (@pass_frame_good t true slot wr p _ u Hu (crc8_byte p)).
  reflexivity.
Qed.

(** The same frame with a checksum byte that does not match takes two
    passes and leaves no trace. *)
Lemma run_bad_checksum (p : list byte) (c : byte) (n : nat) :
  length p = 16 ->
  byte_to_Z c <> _calculate_crc8 p ->
  while_running (2 + n)
    (mk_loop (mk_receiver (feed (frame p c) ++ t) true slot) 0 wr)
  = while_running n (mk_loop (mk_receiver t true slot) 0 wr).
Proof.
  intros Hp Hc. unfold frame.
  change (feed ([xaa; x55] ++ [x11] ++ ?l) ++ t)
    with (Rx xaa :: feed ([x55; x11] ++ l) ++ t).
  change (2 + n) with (S (S n)).
  cbn [while_running self is_running].
  rewrite pass_seek_first. cbn [self is_running].
  change (if Byte.eqb xaa xaa then 1 else 0) with 1.
  rewrite (@pass_frame_bad t true slot wr p c Hp Hc).
  reflexivity.
Qed.

End WireRuns.

Lemma example_record_in_range : in_range example_record.
Proof. unfold in_range, u16, u64, example_record; cbn; lia. Qed.

(** ** The slot: [get_latest_data] *)

(** C2.  A take returns what the slot holds and leaves the slot empty, so
    a take that follows at once, with nothing stored in between, returns
    [None]: whatever the first one returned. *)
Theorem take_consumes (T : Type) (rcv : MaixCamReceiver T) :
  let (first, rcv') := get_latest_data rcv in
  let (second, rcv'') := get_latest_data rcv' in
  first = latest_data rcv /\ latest_data rcv' = None /\
  second = None /\ latest_data rcv'' = None /\
  ser rcv'' = ser rcv /\ is_running rcv'' = is_running rcv.
Proof.
  unfold get_latest_data. cbn. repeat split.
Qed.

(** ** Decoding a valid frame *)

(** C1.  A record with 16-bit [x], [y], [w], [h] and a 64-bit [timestamp],
    laid out as a frame and fed to a receiver that has just been started:
    once two passes of the loop have run (and however many follow), the
    loop has stored exactly one record, the original; the line is used up,
    the loop is back at phase 0 and still running; a take returns the
    record and a second take returns nothing. *)
Theorem valid_frame_roundtrip (d : data) (n : nat) :
  in_range d ->
  let final := _read_loop (2 + n) (started (feed (encode d))) in
  written final = [d] /\
  sync_state final = 0 /\
  ser (self final) = [] /\
  is_running (self final) = true /\
  fst (get_latest_data (self final)) = Some d /\
  fst (get_latest_data (snd (get_latest_data (self final)))) = None.
Proof.
  intros Hd. pose proof (struct_unpack_pack Hd) as Hu.
  destruct (struct_unpack (struct_pack d)) as [u|] eqn:E; [|discriminate].
  cbn [option_map] in Hu. injection Hu as Hu.
  unfold _read_loop, started, encode.
  rewrite <- (app_nil_r (feed (valid_frame (struct_pack d)))).
  rewrite (@run_valid_frame [] None [] _ u n E), run_idle, Hu.
  cbn. repeat split.
Qed.

Lemma valid_frame_roundtrip_witness :
  in_range example_record /\
  written (_read_loop 2 (started (feed (encode example_record))))
  = [example_record] /\
  fst (get_latest_data
         (self (_read_loop 2 (started (feed (encode example_record))))))
  = Some example_record.
Proof.
  split; [exact example_record_in_range|].
  pose proof (@valid_frame_roundtrip example_record 0 example_record_in_range)
    as (Hw & _ & _ & _ & Hg & _).
  split; [exact Hw | exact Hg].
Defined.

(** ** Checksum: a changed payload byte is always noticed *)

Lemma nodupb_NoDup (l : list Z) : nodupb l = true -> NoDup l.
Proof.
  induction l as [|a r IH]; simpl; intros Hb.
  - constructor.
  - apply andb_true_iff in Hb as [Ha Hr]. constructor.
    + intros Hin. apply negb_true_iff in Ha.
      assert (existsb (Z.eqb a) r = true); [|congruence].
      apply existsb_exists. exists a. split; [exact Hin | apply Z.eqb_refl].
    + apply IH, Hr.
Qed.

Lemma table_NoDup : NoDup _CRC8_TABLE.
Proof. apply nodupb_NoDup. vm_compute. reflexivity. Qed.

Lemma byte_to_Z_inj (a b : byte) : byte_to_Z a = byte_to_Z b -> a = b.
Proof.
  intros E. rewrite <- (byte_of_to_Z a), <- (byte_of_to_Z b), E. reflexivity.
Qed.

Lemma lxor_cancel_r (a b c : Z) : Z.lxor a c = Z.lxor b c -> a = b.
Proof.
  intros E.
  assert (E' : Z.lxor (Z.lxor a c) c = Z.lxor (Z.lxor b c) c) by congruence.
  now rewrite !Z.lxor_assoc, !Z.lxor_nilpotent, !Z.lxor_0_r in E'.
Qed.

Lemma lxor_cancel_l (a b c : Z) : Z.lxor c a = Z.lxor c b -> a = b.
Proof. rewrite !(Z.lxor_comm c). apply lxor_cancel_r. Qed.

Lemma table_lookup_inj (i j : Z) :
  (0 <= i < 256)%Z -> (0 <= j < 256)%Z ->
  nth (Z.to_nat i) _CRC8_TABLE 0%Z = nth (Z.to_nat j) _CRC8_TABLE 0%Z ->
  i = j.
Proof.
  intros Hi Hj E.
  pose proof (proj1 (NoDup_nth _CRC8_TABLE 0%Z) table_NoDup
                (Z.to_nat i) (Z.to_nat j)) as Hn.
  rewrite table_length in Hn. specialize (Hn ltac:(lia) ltac:(lia) E). lia.
Qed.

(** Same byte, different accumulators: the accumulators stay different. *)
Lemma crc8_step_inj_crc (c1 c2 : Z) (b : byte) :
  (0 <= c1 < 256)%Z -> (0 <= c2 < 256)%Z ->
  crc8_step c1 b = crc8_step c2 b -> c1 = c2.
Proof.
  intros H1 H2 E. unfold crc8_step in E.
  apply table_lookup_inj in E;
    try (apply lxor_byte_range; auto using byte_to_Z_range).
  eapply lxor_cancel_r, E.
Qed.

(** Same accumulator, different bytes: the accumulators differ afterwards. *)
Lemma crc8_step_inj_byte (c : Z) (b1 b2 : byte) :
  (0 <= c < 256)%Z -> crc8_step c b1 = crc8_step c b2 -> b1 = b2.
Proof.
  intros Hc E. unfold crc8_step in E.
  apply table_lookup_inj in E;
    try (apply lxor_byte_range; auto using byte_to_Z_range).
  apply byte_to_Z_inj. eapply lxor_cancel_l, E.
Qed.

Lemma crc8_fold_inj (l : list byte) (c1 c2 : Z) :
  (0 <= c1 < 256)%Z -> (0 <= c2 < 256)%Z ->
  fold_left crc8_step l c1 = fold_left crc8_step l c2 -> c1 = c2.
Proof.
  revert c1 c2. induction l as [|b l IH]; intros c1 c2 H1 H2 E; simpl in E.
  - exact E.
  - apply IH in E; try (apply crc8_step_range; assumption).
    eapply crc8_step_inj_crc; eauto.
Qed.

(** Replacing one byte of the data (a flipped bit, for one) changes the
    checksum. *)
Lemma crc8_detects_byte_change (pre post : list byte) (b b' : byte) :
  b <> b' ->
  _calculate_crc8 (pre ++ b :: post) <> _calculate_crc8 (pre ++ b' :: post).
Proof.
  intros Hb E. unfold _calculate_crc8 in E.
  rewrite !fold_left_app in E. cbn [fold_left] in E.
  assert (Hc : (0 <= fold_left crc8_step pre 0 < 256)%Z)
    by (apply crc8_fold_range; lia).
  apply crc8_fold_inj in E; try (apply crc8_step_range; exact Hc).
  apply crc8_step_inj_byte in E; [contradiction | exact Hc].
Qed.

(** ** Checksum failure *)

Lemma feed_app (a b : list byte) : feed (a ++ b) = feed a ++ feed b.
Proof. apply map_app. Qed.


(** C3.  A frame of the right shape whose checksum byte is not the CRC-8
    of its sixteen payload bytes: two passes consume exactly the frame,
    store nothing, leave the slot as it was and the loop at phase 0 and
    running; and when a valid frame follows it at once, that frame is
    decoded and stored, the only record stored. *)
Theorem bad_checksum_discarded
    (p : list byte) (c : byte) (d : data) (old : option data)
    (t : list event) (n : nat) :
  length p = 16 ->
  byte_to_Z c <> _calculate_crc8 p ->
  in_range d ->
  _read_loop 2 (mk_receiver (feed (frame p c) ++ t) true old)
  = mk_loop (mk_receiver t true old) 0 []
  /\
  _read_loop (4 + n) (mk_receiver (feed (frame p c ++ encode d)) true old)
  = mk_loop (mk_receiver [] true (Some d)) 0 [d].
Proof.
  intros Hp Hc Hd. unfold _read_loop. split.
  - apply (@run_bad_checksum t old [] p c 0 Hp Hc).
  - pose proof (struct_unpack_pack Hd) as Hu.
    destruct (struct_unpack (struct_pack d)) as [u|] eqn:E; [|discriminate].
    cbn [option_map] in Hu. injection Hu as Hu.
    rewrite feed_app.
    rewrite (@run_bad_checksum _ old [] p c (2 + n) Hp Hc).
    unfold encode. rewrite <- (app_nil_r (feed _)).
    rewrite (@run_valid_frame [] old [] _ u n E), run_idle, Hu.
    reflexivity.
Qed.

(** The example frame with the low bit of its first payload byte flipped
    (0x64 sent as 0x65), then the intact frame. *)
Lemma bad_checksum_discarded_witness :
  length (x65 :: tl (struct_pack example_record)) = 16 /\
  byte_to_Z xe1 <> _calculate_crc8 (x65 :: tl (struct_pack example_record)) /\
  in_range example_record /\
  _read_loop 2
    (mk_receiver
       (feed (frame (x65 :: tl (struct_pack example_record)) xe1) ++ [])
       true None)
  = mk_loop (mk_receiver [] true None) 0 []
  /\
  _read_loop 4
    (mk_receiver
       (feed (frame (x65 :: tl (struct_pack example_record)) xe1
              ++ encode example_record))
       true None)
  = mk_loop (mk_receiver [] true (Some example_record)) 0 [example_record].
Proof.
  assert (Hp : length (x65 :: tl (struct_pack example_record)) = 16)
    by reflexivity.
  assert (Hc : byte_to_Z xe1
               <> _calculate_crc8 (x65 :: tl (struct_pack example_record)))
    by (vm_compute; discriminate).
  split; [exact Hp|]. split; [exact Hc|].
  split; [exact example_record_in_range|].
  exact (@bad_checksum_discarded _ xe1 example_record None [] 0
           Hp Hc example_record_in_range).
Defined.

(** The example that goes with C3: a valid frame in which one payload byte was
    altered on the way is always rejected. *)
Lemma altered_payload_byte_discarded
    (pre post : list byte) (b b' : byte) (old : option data) (t : list event) :
  length (pre ++ b :: post) = 16 ->
  b <> b' ->
  _read_loop 2
    (mk_receiver
       (feed (frame (pre ++ b' :: post)
                    (byte_of_Z (_calculate_crc8 (pre ++ b :: post)))) ++ t)
       true old)
  = mk_loop (mk_receiver t true old) 0 [].
Proof.
  intros Hl Hb. unfold _read_loop.
  apply (@run_bad_checksum t old [] _ _ 0).
  - rewrite length_app in *. exact Hl.
  - rewrite crc8_byte. apply crc8_detects_byte_change, Hb.
Qed.

(** ** Marker bytes inside the payload *)

(** C9.  A valid frame whose payload holds [0xAA 0x55] somewhere: the
    first pass consumes the leading [0xAA] alone, the second consumes all
    the rest of the frame in one go, and the payload is decoded and stored;
    nothing else is stored and the loop is at phase 0 right behind the
    frame. *)
Theorem marker_in_payload_decodes
    (p : list byte) (i : nat) (u : Z * Z * Z * Z * Z)
    (old : option data) (t : list event) :
  struct_unpack p = Some u ->
  nth_error p i = Some xaa ->
  nth_error p (S i) = Some x55 ->
  _read_loop 1 (mk_receiver (feed (valid_frame p) ++ t) true old)
  = mk_loop (mk_receiver (feed (tl (valid_frame p)) ++ t) true old) 1 []
  /\
  _read_loop 2 (mk_receiver (feed (valid_frame p) ++ t) true old)
  = mk_loop (mk_receiver t true (Some (data_of_tuple u))) 0
            [data_of_tuple u].
Proof.
  intros Hu _ _. unfold _read_loop. split.
  - unfold valid_frame, frame. cbn [app feed map tl while_running self is_running].
    rewrite pass_seek_first. reflexivity.
  - apply (@run_valid_frame t old [] p u 0 Hu).
Qed.

(** x = 0x55AA is sent as the bytes AA 55. *)
Lemma marker_in_payload_decodes_witness :
  _read_loop 2
    (mk_receiver
       (feed (valid_frame
                (struct_pack {| x := 0x55aa; y := 0; w := 0xaa; h := 0x55;
                                timestamp := 0x55aa55aa |}%Z)) ++ [])
       true None)
  = mk_loop
      (mk_receiver []
         true (Some {| x := 0x55aa; y := 0; w := 0xaa; h := 0x55;
                       timestamp := 0x55aa55aa |}%Z))
      0 [{| x := 0x55aa; y := 0; w := 0xaa; h := 0x55;
            timestamp := 0x55aa55aa |}%Z].
Proof.
  refine (proj2 (@marker_in_payload_decodes _ 0 (0x55aa, 0, 0xaa, 0x55, 0x55aa55aa)%Z
                   None [] _ _ _)); reflexivity.
Defined.

(** ** Marker search, for any transport *)

Ltac open_generic :=
  unfold loop_iteration, try_body, bind, get_sync_state, set_sync_state,
    read, store, or_raise, ret, raise;
  cbn [self sync_state ser is_running latest_data written Nat.eqb].

Section MarkerSearch.
Context {T : Type} {transport : Transport T}.
Variables (t t' : T) (run : bool) (slot : option data) (wr : list data).

Lemma pass_second_mismatch (b : byte) :
  ser_read 1 t = (Normal [b], t') ->
  b <> x55 ->
  loop_iteration (mk_loop (mk_receiver t run slot) 1 wr)
  = mk_loop (mk_receiver t' run slot) 0 wr.
Proof.
  intros Hr Hb. open_generic. rewrite Hr.
  assert (Hn : bytes_eqb [b] (skipn 1 _SOF) = false).
  { apply bytes_eqb_neq. cbn. congruence. }
  rewrite Hn. reflexivity.
Qed.

(** C5.  Awaiting the second marker byte, the read delivers one byte [b]
    other than [0x55]: the pass ends at phase 0 with that single read
    done, so [b] is gone; in particular for [b = 0xAA] the phase is 0 and
    not 1, the byte is not taken as the first marker byte of a frame. *)
Theorem second_marker_mismatch_drops_byte (b : byte) :
  ser_read 1 t = (Normal [b], t') ->
  b <> x55 ->
  loop_iteration (mk_loop (mk_receiver t run slot) 1 wr)
  = mk_loop (mk_receiver t' run slot) 0 wr
  /\ (b = xaa ->
      sync_state (loop_iteration (mk_loop (mk_receiver t run slot) 1 wr))
      <> 1).
Proof.
  intros Hr Hb. pose proof (pass_second_mismatch Hr Hb) as E.
  split; [exact E|]. intros _. rewrite E. cbn. discriminate.
Qed.

(** C10.  A one-byte read that times out during the marker search: from
    phase 0 the pass ends at phase 0, from phase 1 it ends at phase 0 as
    well; in both that read is the only one of the pass and nothing else
    changes. *)
Theorem marker_search_timeout :
  ser_read 1 t = (Normal [], t') ->
  loop_iteration (mk_loop (mk_receiver t run slot) 0 wr)
  = mk_loop (mk_receiver t' run slot) 0 wr
  /\
  loop_iteration (mk_loop (mk_receiver t run slot) 1 wr)
  = mk_loop (mk_receiver t' run slot) 0 wr.
Proof.
  intros Hr. split; open_generic; rewrite Hr; reflexivity.
Qed.

End MarkerSearch.

Lemma second_marker_mismatch_drops_byte_witness :
  ser_read 1 (feed [xaa; x55; x11]) = (Normal [xaa], feed [x55; x11]) /\
  xaa <> x55 /\
  loop_iteration (mk_loop (mk_receiver (feed [xaa; x55; x11]) true None) 1 [])
  = mk_loop (mk_receiver (feed [x55; x11]) true None) 0 [].
Proof.
  assert (Hr : ser_read 1 (feed [xaa; x55; x11])
               = (Normal [xaa], feed [x55; x11])) by reflexivity.
  assert (Hb : xaa <> x55) by discriminate.
  split; [exact Hr|]. split; [exact Hb|].
  exact (proj1 (@second_marker_mismatch_drops_byte _ _ _ _ true None [] xaa Hr Hb)).
Defined.

Lemma marker_search_timeout_witness :
  ser_read 1 (Timeout :: feed [xaa]) = (Normal [], feed [xaa]) /\
  loop_iteration (mk_loop (mk_receiver (Timeout :: feed [xaa]) true None) 1 [])
  = mk_loop (mk_receiver (feed [xaa]) true None) 0 [].
Proof.
  assert (Hr : ser_read 1 (Timeout :: feed [xaa]) = (Normal [], feed [xaa]))
    by reflexivity.
  split; [exact Hr|].
  exact (proj2 (@marker_search_timeout _ _ _ _ true None [] Hr)).
Defined.

(** What dropping the byte costs: a stray [0xAA] right before a valid frame
    pairs with the frame's own [0xAA], and the frame goes by undecoded. *)
Example stray_marker_byte_hides_frame :
  _read_loop 30 (started (feed ([xaa] ++ encode example_record)))
  = mk_loop (mk_receiver [] true None) 0 [].
Proof. vm_compute. reflexivity. Qed.

(** ** A wrong length byte *)

Lemma to_nat_17 (b : byte) : Byte.to_nat b = 17 -> b = x11.
Proof.
  intros E. pose proof (Byte.of_to_nat b) as H. rewrite E in H.
  cbn in H. congruence.
Qed.

Section WireGarbage.
Variables (t : list event) (slot : option data) (wr : list data).

(** Both marker bytes, then a length byte that is not 17: the pass that
    reads [0x55] also reads the length byte and gives up there. *)
Lemma pass_bad_length (run : bool) (L : byte) :
  L <> x11 ->
  loop_iteration (mk_loop (mk_receiver (Rx x55 :: Rx L :: t) run slot) 1 wr)
  = mk_loop (mk_receiver t run slot) 0 wr.
Proof.
  intros HL.
  assert (E : (Byte.to_nat L =? _EXPECTED_PACKET_LEN) = false).
  { apply Nat.eqb_neq. intros E. apply to_nat_17 in E. contradiction. }
  open_body. cbn -[Byte.to_nat _EXPECTED_PACKET_LEN].
  rewrite E. reflexivity.
Qed.

Lemma pass_seek_second_other (run : bool) (b : byte) :
  b <> x55 ->
  loop_iteration (mk_loop (mk_receiver (Rx b :: t) run slot) 1 wr)
  = mk_loop (mk_receiver t run slot) 0 wr.
Proof.
  intros Hb. apply (@pass_second_mismatch _ wire_transport) with (b := b).
  - reflexivity.
  - exact Hb.
Qed.

End WireGarbage.

(** Bytes without a start marker among them are consumed one per pass, in
    phases 0 and 1 only. *)
Lemma run_garbage (g : list byte) :
  forall (st : nat) (t : list event) (slot : option data) (wr : list data),
    no_sof g = true ->
    st <= 1 ->
    (st = 1 -> hd_error g <> Some x55) ->
    exists st',
      st' <= 1 /\
      while_running (length g) (mk_loop (mk_receiver (feed g ++ t) true slot) st wr)
      = mk_loop (mk_receiver t true slot) st' wr.
Proof.
  induction g as [|b g IH]; intros st t slot wr Hg Hst Hhd.
  - exists st. split; [exact Hst | reflexivity].
  - cbn [length feed map app while_running self is_running].
    fold (feed g).
    assert (Hg' : no_sof g = true).
    { destruct g as [|b2 g2]; [reflexivity|].
      cbn [no_sof] in Hg. apply andb_true_iff in Hg. tauto. }
    destruct st as [|[|st]]; [| |lia].
    + rewrite pass_seek_first.
      apply IH; [exact Hg' | destruct (Byte.eqb b xaa); lia |].
      destruct (Byte.eqb b xaa) eqn:Eb; [|discriminate].
      intros _. destruct g as [|b2 g2]; [discriminate|].
      cbn [hd_error]. intros E. injection E as ->.
      cbn [no_sof] in Hg. rewrite Eb in Hg. cbn in Hg. discriminate.
    + rewrite pass_seek_second_other.
      * apply IH; [exact Hg' | lia | discriminate].
      * intros ->. apply (Hhd eq_refl). reflexivity.
Qed.

(** Bytes among which there is no [0xAA] leave the loop at phase 0. *)
Lemma run_noise (g : list byte) :
  forall (t : list event) (slot : option data) (wr : list data),
    forallb (fun b => negb (Byte.eqb b xaa)) g = true ->
    while_running (length g) (mk_loop (mk_receiver (feed g ++ t) true slot) 0 wr)
    = mk_loop (mk_receiver t true slot) 0 wr.
Proof.
  induction g as [|b g IH]; intros t slot wr Hg.
  - reflexivity.
  - cbn [forallb] in Hg. apply andb_true_iff in Hg as [Hb Hg].
    cbn [length feed map app while_running self is_running]. fold (feed g).
    rewrite pass_seek_first. apply negb_true_iff in Hb. rewrite Hb.
    apply IH, Hg.
Qed.

(** Both marker bytes and then a length byte other than 17, with any
    bytes [g] behind it among which no start marker occurs: the attempt
    ends in the pass that read the length byte, with nothing stored, the
    slot untouched, the loop at phase 0 and running, and [g] still unread;
    the bytes of [g] are then consumed one per pass, nothing is stored, and
    the loop is still running, in marker search. *)
Theorem bad_length_aborts
    (L : byte) (g : list byte) (t : list event) (old : option data) :
  L <> x11 ->
  no_sof g = true ->
  _read_loop 2 (mk_receiver (feed ([xaa; x55; L] ++ g) ++ t) true old)
  = mk_loop (mk_receiver (feed g ++ t) true old) 0 []
  /\
  exists st,
    st <= 1 /\
    _read_loop (2 + length g)
      (mk_receiver (feed ([xaa; x55; L] ++ g) ++ t) true old)
    = mk_loop (mk_receiver t true old) st [].
Proof.
  intros HL Hg. unfold _read_loop.
  assert (E2 : while_running 2
                 (mk_loop (mk_receiver (feed ([xaa; x55; L] ++ g) ++ t) true old) 0 [])
               = mk_loop (mk_receiver (feed g ++ t) true old) 0 []).
  { cbn [app feed map while_running self is_running]. fold (feed g).
    rewrite pass_seek_first. cbn [self is_running].
    change (if Byte.eqb xaa xaa then 1 else 0) with 1.
    rewrite pass_bad_length by exact HL. reflexivity. }
  split; [exact E2|].
  rewrite while_running_add, E2.
  apply run_garbage; [exact Hg | lia | discriminate].
Qed.

(** After the aborted attempt, noise without [0xAA] in it is skipped and a
    valid frame behind it is decoded. *)
Lemma resync_after_bad_length
    (L : byte) (g : list byte) (d : data) (old : option data) (n : nat) :
  L <> x11 ->
  forallb (fun b => negb (Byte.eqb b xaa)) g = true ->
  in_range d ->
  _read_loop (2 + (length g + (2 + n)))
    (mk_receiver (feed ([xaa; x55; L] ++ g ++ encode d)) true old)
  = mk_loop (mk_receiver [] true (Some d)) 0 [d].
Proof.
  intros HL Hg Hd. unfold _read_loop.
  pose proof (struct_unpack_pack Hd) as Hu.
  destruct (struct_unpack (struct_pack d)) as [u|] eqn:E; [|discriminate].
  cbn [option_map] in Hu. injection Hu as Hu.
  rewrite while_running_add.
  cbn [app feed map while_running self is_running].
  rewrite pass_seek_first. cbn [self is_running].
  change (if Byte.eqb xaa xaa then 1 else 0) with 1.
  rewrite pass_bad_length by exact HL.
  fold (feed (g ++ encode d)). rewrite feed_app, while_running_add.
  rewrite run_noise by exact Hg.
  unfold encode. rewrite <- (app_nil_r (feed _)).
  rewrite (@run_valid_frame [] old [] _ u n E), run_idle, Hu.
  reflexivity.
Qed.

(** The search over bytes without a start marker among them, with the
    phase it ends in. *)
Lemma run_search (g : list byte) :
  forall (st : nat) (t : list event) (slot : option data) (wr : list data),
    no_sof g = true ->
    st <= 1 ->
    (st = 1 -> hd_error g <> Some x55) ->
    while_running (length g) (mk_loop (mk_receiver (feed g ++ t) true slot) st wr)
    = mk_loop (mk_receiver t true slot) (search_phase st g) wr.
Proof.
  induction g as [|b g IH]; intros st t slot wr Hg Hst Hhd.
  - reflexivity.
  - cbn [length feed map app while_running self is_running].
    fold (feed g).
    assert (Hg' : no_sof g = true).
    { destruct g as [|b2 g2]; [reflexivity|].
      cbn [no_sof] in Hg. apply andb_true_iff in Hg. tauto. }
    unfold search_phase. cbn [fold_left]. fold (search_phase (search_step st b) g).
    destruct st as [|[|st]]; [| |lia].
    + rewrite pass_seek_first. unfold search_step. cbn [Nat.eqb andb].
      apply IH; [exact Hg' | destruct (Byte.eqb b xaa); lia |].
      destruct (Byte.eqb b xaa) eqn:Eb; [|discriminate].
      intros _. destruct g as [|b2 g2]; [discriminate|].
      cbn [hd_error]. intros E. injection E as ->.
      cbn [no_sof] in Hg. rewrite Eb in Hg. cbn in Hg. discriminate.
    + rewrite pass_seek_second_other.
      * unfold search_step. cbn [Nat.eqb andb].
        apply IH; [exact Hg' | lia | discriminate].
      * intros ->. apply (Hhd eq_refl). reflexivity.
Qed.

(** From phase 0 the search ends at phase 1 exactly when the bytes end in
    an odd number of [0xAA]. *)
Lemma search_phase_parity (g : list byte) :
  search_phase 0 g = if Nat.even (trailing_aa g) then 0 else 1.
Proof.
  unfold search_phase, trailing_aa.
  induction g as [|b g IH] using rev_ind; [reflexivity|].
  rewrite fold_left_app, rev_app_distr. cbn [fold_left rev app leading_aa].
  rewrite IH. unfold search_step.
  destruct (Byte.eqb b xaa); [|rewrite andb_false_r; reflexivity].
  rewrite andb_true_r, Nat.even_succ, <- Nat.negb_even.
  destruct (Nat.even (leading_aa (rev g))); reflexivity.
Qed.

(** C7, as the code has it.  Both marker bytes and then a length byte
    other than 17: the attempt ends in the pass that read the length byte,
    with nothing stored, the slot untouched, the loop at phase 0 and
    running, and the bytes behind the length byte unread.  Bytes [g] that
    follow, with no start marker among them, are consumed one per pass and
    nothing is stored.  A valid frame behind [g] is decoded when [g] ends
    in an even number of [0xAA] bytes (none, for one); when [g] ends in an
    odd number of them the loop awaits the second marker byte as the frame
    arrives, and the frame's own [0xAA] is dropped. *)
Theorem bad_length_aborts_then_resyncs
    (L : byte) (g : list byte) (d : data) (t : list event)
    (old : option data) (n : nat) :
  L <> x11 ->
  no_sof g = true ->
  in_range d ->
  _read_loop 2 (mk_receiver (feed ([xaa; x55; L] ++ g) ++ t) true old)
  = mk_loop (mk_receiver (feed g ++ t) true old) 0 []
  /\
  _read_loop (2 + length g)
    (mk_receiver (feed ([xaa; x55; L] ++ g) ++ t) true old)
  = mk_loop (mk_receiver t true old)
            (if Nat.even (trailing_aa g) then 0 else 1) []
  /\
  (Nat.even (trailing_aa g) = true ->
   _read_loop (2 + (length g + (2 + n)))
     (mk_receiver (feed (([xaa; x55; L] ++ g) ++ encode d)) true old)
   = mk_loop (mk_receiver [] true (Some d)) 0 [d])
  /\
  (Nat.even (trailing_aa g) = false ->
   _read_loop (2 + (length g + 1))
     (mk_receiver (feed (([xaa; x55; L] ++ g) ++ encode d)) true old)
   = mk_loop (mk_receiver (feed (tl (encode d))) true old) 0 []).
Proof.
  intros HL Hg Hd. unfold _read_loop.
  assert (E2 : forall t',
             while_running 2
               (mk_loop
                  (mk_receiver (feed ([xaa; x55; L] ++ g) ++ t') true old) 0 [])
             = mk_loop (mk_receiver (feed g ++ t') true old) 0 []).
  { intros t'. cbn [app feed map while_running self is_running]. fold (feed g).
    rewrite pass_seek_first. cbn [self is_running].
    change (if Byte.eqb xaa xaa then 1 else 0) with 1.
    rewrite pass_bad_length by exact HL. reflexivity. }
  assert (Eg : forall t',
             while_running (2 + length g)
               (mk_loop
                  (mk_receiver (feed ([xaa; x55; L] ++ g) ++ t') true old) 0 [])
             = mk_loop (mk_receiver t' true old)
                       (if Nat.even (trailing_aa g) then 0 else 1) []).
  { intros t'. rewrite while_running_add, E2.
    rewrite run_search by (auto; discriminate).
    rewrite search_phase_parity. reflexivity. }
  split; [apply E2|]. split; [apply Eg|]. split.
  - intros Hev.
    pose proof (struct_unpack_pack Hd) as Hu.
    destruct (struct_unpack (struct_pack d)) as [u|] eqn:E; [|discriminate].
    cbn [option_map] in Hu. injection Hu as Hu.
    rewrite feed_app, Nat.add_assoc, while_running_add, Eg, Hev.
    unfold encode. rewrite <- (app_nil_r (feed _)).
    rewrite (@run_valid_frame [] old [] _ u n E), run_idle, Hu. reflexivity.
  - intros Hodd.
    rewrite feed_app, Nat.add_assoc, while_running_add, Eg, Hodd.
    cbn [while_running self is_running].
    unfold encode, valid_frame, frame. cbn [app feed map tl].
    apply pass_seek_second_other. discriminate.
Qed.

Lemma bad_length_aborts_then_resyncs_witness :
  x12 <> x11 /\
  no_sof [x01; xaa; xaa] = true /\
  in_range example_record /\
  _read_loop 7
    (mk_receiver
       (feed (([xaa; x55; x12] ++ [x01; xaa; xaa]) ++ encode example_record))
       true None)
  = mk_loop (mk_receiver [] true (Some example_record)) 0 [example_record].
Proof.
  assert (HL : x12 <> x11) by discriminate.
  assert (Hg : no_sof [x01; xaa; xaa] = true) by reflexivity.
  split; [exact HL|]. split; [exact Hg|].
  split; [exact example_record_in_range|].
  exact (proj1 (proj2 (proj2
           (@bad_length_aborts_then_resyncs x12 [x01; xaa; xaa]
              example_record [] None 0 HL Hg example_record_in_range)))
           eq_refl).
Defined.

(** C7 as stated fails.  Behind the wrong length byte comes one [0xAA]
    and then a valid frame: the stray byte is taken as first marker byte,
    the frame's own [0xAA] fails the second check, and the frame's start
    marker is discarded with the rest.  The line is used up and nothing
    was stored. *)
Lemma start_marker_after_bad_length_missed :
  x12 <> x11 /\
  _read_loop 30
    (mk_receiver
       (feed ([xaa; x55; x12] ++ [xaa] ++ encode example_record)) true None)
  = mk_loop (mk_receiver [] true None) 0 [].
Proof. split; [discriminate | vm_compute; reflexivity]. Qed.

(** ** Where a pass ends, for any transport *)

Ltac quiet_cbn :=
  cbn -[Byte.to_nat _calculate_crc8 struct_unpack index_last byte_to_Z
        bytes_eqb _EXPECTED_PACKET_LEN].

(** Case analysis on the next thing the body branches on. *)
Ltac split_step :=
  match goal with
  | |- context [ser_read ?n ?t] =>
      destruct (ser_read n t) as [[?|[|]] ?] eqn:?
  | |- context [bytes_eqb ?a ?b] => destruct (bytes_eqb a b) eqn:?
  | |- context [Nat.eqb ?a ?b] => destruct (Nat.eqb a b) eqn:?
  | |- context [Z.eqb ?a ?b] => destruct (Z.eqb a b) eqn:?
  | |- context [index_last ?a] => destruct (index_last a) eqn:?
  | |- context [struct_unpack ?a] => destruct (struct_unpack a) eqn:?
  | |- context [match ?x with [] => _ | _ :: _ => _ end] => destruct x eqn:?
  end; quiet_cbn.

Section Attempts.
Context {T : Type} {transport : Transport T}.

(** A body that ends without an exception ends at phase 0, except when
    it has just read the first marker byte. *)
Lemma try_body_phase (s : loop_state T) :
  sync_state s <= 2 ->
  match try_body s with
  | (Normal _, s') =>
      sync_state s' = 0 \/
      (sync_state s = 0 /\ sync_state s' = 1 /\
       exists t', ser_read 1 (ser (self s)) = (Normal [xaa], t'))
  | (Raise _, _) => True
  end.
Proof.
  destruct s as [[t run slot] st wr]. cbn [sync_state]. intros Hst.
  destruct st as [|[|[|st]]]; [| | |lia]; open_generic; quiet_cbn.
  - split_step; try exact I. split_step.
    + right. apply bytes_eqb_eq in Heqb. subst. eauto.
    + left. reflexivity.
  - repeat split_step; try exact I; left; reflexivity.
  - repeat split_step; try exact I; left; reflexivity.
Qed.

(** A body that raises has stored nothing, and has not touched the
    running flag. *)
Lemma try_body_raise_keeps_slot (s : loop_state T) :
  match try_body s with
  | (Normal _, s') => is_running (self s') = is_running (self s)
  | (Raise _, s') =>
      latest_data (self s') = latest_data (self s) /\
      written s' = written s /\
      is_running (self s') = is_running (self s)
  end.
Proof.
  destruct s as [[t run slot] st wr].
  destruct st as [|[|[|st]]]; open_generic; quiet_cbn;
    repeat split_step; auto.
Qed.

(** The phase never leaves 0, 1, 2. *)
Lemma loop_iteration_phase_bound (s : loop_state T) :
  sync_state s <= 2 -> sync_state (loop_iteration s) <= 2.
Proof.
  destruct s as [[t run slot] st wr]. cbn [sync_state]. intros Hst.
  destruct st as [|[|[|st]]]; [| | |lia]; open_generic; quiet_cbn;
    repeat split_step; lia.
Qed.

(** C4, as the code has it.  A pass whose body raises nothing ends at
    phase 0 (the attempt is over: stored, or given up on a wrong second
    marker byte, a missing or wrong length byte, a short read, a wrong
    end marker or a wrong checksum), unless it is the pass that read the
    first marker byte at phase 0 (the attempt goes on at phase 1).  A pass
    whose body raises an exception other than [SerialException] leaves
    the loop running with the slot as it was. *)
Theorem attempt_ends_at_phase_0 (s : loop_state T) :
  sync_state s <= 2 ->
  (fst (try_body s) = Normal tt ->
   sync_state (loop_iteration s) = 0 \/
   (sync_state s = 0 /\ sync_state (loop_iteration s) = 1 /\
    exists t', ser_read 1 (ser (self s)) = (Normal [xaa], t')))
  /\
  (fst (try_body s) = Raise Exception ->
   is_running (self (loop_iteration s)) = is_running (self s) /\
   latest_data (self (loop_iteration s)) = latest_data (self s) /\
   written (loop_iteration s) = written s).
Proof.
  intros Hst. pose proof (try_body_phase s Hst) as Hp.
  pose proof (try_body_raise_keeps_slot s) as Hk.
  unfold loop_iteration.
  destruct (try_body s) as [[[]|[|]] s']; cbn [fst]; split;
    try discriminate; intros _; tauto.
Qed.

End Attempts.

Lemma attempt_ends_at_phase_0_witness :
  1 <= 2 /\
  sync_state
    (loop_iteration
       (mk_loop (mk_receiver (feed (tl (encode example_record))) true None) 1 []))
  = 0.
Proof.
  split; [lia|].
  destruct (@attempt_ends_at_phase_0 _ wire_transport
              (mk_loop (mk_receiver (feed (tl (encode example_record))) true None)
                       1 [])
              ltac:(cbn; lia)) as [Hn _].
  destruct (Hn eq_refl) as [H0 | (H1 & _)].
  - exact H0.
  - discriminate H1.
Defined.

(** C4 as stated fails.  Both marker bytes are read, and the
    read of the length byte raises an exception that is not a
    [SerialException]: the handler reports it and the loop goes on, at
    phase 2. *)
Lemma caught_error_keeps_phase :
  sync_state (_read_loop 2 (started [Rx xaa; Rx x55; Fault])) = 2 /\
  sync_state (_read_loop 2 (started [Rx xaa; Rx x55; Fault])) <> 0 /\
  is_running (self (_read_loop 2 (started [Rx xaa; Rx x55; Fault]))) = true.
Proof. repeat split. discriminate. Qed.

(** The header read before the error is still in force after it: the next
    pass takes the following byte as the length byte and completes the
    frame. *)
Example frame_completed_across_caught_error :
  _read_loop 3
    (started ([Rx xaa; Rx x55; Fault]
              ++ feed (skipn 2 (encode example_record))))
  = mk_loop (mk_receiver [] true (Some example_record)) 0 [example_record].
Proof. vm_compute. reflexivity. Qed.

(** ** A disconnect ends the loop *)

Section Disconnect.
Variable rest : list event.

(** A read on a line with a disconnect ahead: either it runs into the
    disconnect and raises, leaving the line right behind it, or it stays
    in front of it. *)
Lemma wire_read_before_disconnect (k : nat) :
  forall a : list event,
    no_disconnect a = true ->
    match ser_read k (a ++ Disconnect :: rest) with
    | (Raise SerialException, t') => t' = rest
    | (_, t') =>
        exists a', t' = a' ++ Disconnect :: rest /\
                   no_disconnect a' = true /\
                   length a' <= length a /\
                   (k <> 0 -> length a' < length a)
    end.
Proof.
  unfold ser_read, wire_transport.
  induction k as [|k IH]; intros a Ha.
  - cbn. exists a. repeat split; auto. intros H; contradiction.
  - destruct a as [|[b| | |] a]; cbn [app wire_read].
    + reflexivity.
    + cbn in Ha. specialize (IH a Ha).
      destruct (wire_read k (a ++ Disconnect :: rest)) as [[r|[|]] t'].
      * destruct IH as (a' & -> & Hn & Hl & _).
        exists a'. cbn [length]. repeat split; auto; lia.
      * exact IH.
      * destruct IH as (a' & -> & Hn & Hl & _).
        exists a'. cbn [length]. repeat split; auto; lia.
    + cbn in Ha. exists a. cbn [length]. repeat split; auto; lia.
    + cbn in Ha. discriminate.
    + cbn in Ha. exists a. cbn [length]. repeat split; auto; lia.
Qed.

Ltac read_step :=
  match goal with
  | Ha : no_disconnect ?a = true
    |- context [ser_read ?k (?a ++ Disconnect :: rest)] =>
      let H := fresh "Hrd" in
      pose proof (@wire_read_before_disconnect k a Ha) as H;
      destruct (ser_read k (a ++ Disconnect :: rest)) as [[?|[|]] ?];
      [ destruct H as (? & -> & ? & ? & ?)
      | subst
      | destruct H as (? & -> & ? & ? & ?) ]
  | |- context [bytes_eqb ?a ?b] => destruct (bytes_eqb a b) eqn:?
  | |- context [Nat.eqb ?a ?b] => destruct (Nat.eqb a b) eqn:?
  | |- context [Z.eqb ?a ?b] => destruct (Z.eqb a b) eqn:?
  | |- context [index_last ?a] => destruct (index_last a) eqn:?
  | |- context [struct_unpack ?a] => destruct (struct_unpack a) eqn:?
  | |- context [match ?x with [] => _ | _ :: _ => _ end] => destruct x eqn:?
  end;
  cbn -[Byte.to_nat _calculate_crc8 struct_unpack index_last byte_to_Z
        bytes_eqb _EXPECTED_PACKET_LEN ser_read].

Ltac settle :=
  first
    [ left; repeat split; reflexivity
    | right; split; [discriminate|]; split; [reflexivity|];
      eexists; split; [reflexivity|]; split; [eassumption|]; lia ].

(** One pass with a disconnect ahead on the line. *)
Lemma pass_before_disconnect (a : list event) (s : loop_state (list event)) :
  ser (self s) = a ++ Disconnect :: rest ->
  no_disconnect a = true ->
  sync_state s <= 2 ->
  (fst (try_body s) = Raise SerialException /\
   ser (self (loop_iteration s)) = rest /\
   is_running (self (loop_iteration s)) = false)
  \/
  (fst (try_body s) <> Raise SerialException /\
   is_running (self (loop_iteration s)) = is_running (self s) /\
   exists a', ser (self (loop_iteration s)) = a' ++ Disconnect :: rest /\
              no_disconnect a' = true /\ length a' < length a).
Proof.
  destruct s as [[t run slot] st wr]. cbn [self ser sync_state is_running].
  intros -> Ha Hst.
  destruct st as [|[|[|st]]]; [| | |lia]; open_generic;
    cbn -[Byte.to_nat _calculate_crc8 struct_unpack index_last byte_to_Z
          bytes_eqb _EXPECTED_PACKET_LEN ser_read];
    repeat read_step; settle.
Qed.

(** A run with a disconnect ahead: it has either stopped right behind
    the disconnect or is still in front of it, one event further per
    pass at least. *)
Lemma run_before_disconnect (n : nat) :
  forall (a : list event) (s : loop_state (list event)),
    ser (self s) = a ++ Disconnect :: rest ->
    no_disconnect a = true ->
    sync_state s <= 2 ->
    is_running (self s) = true ->
    (is_running (self (while_running n s)) = false /\
     ser (self (while_running n s)) = rest)
    \/
    (is_running (self (while_running n s)) = true /\
     exists a', ser (self (while_running n s)) = a' ++ Disconnect :: rest /\
                no_disconnect a' = true /\ length a' + n <= length a).
Proof.
  induction n as [|n IH]; intros a s Hs Ha Hst Hrun.
  - right. split; [exact Hrun|]. exists a. cbn. repeat split; auto. lia.
  - cbn [while_running]. rewrite Hrun.
    destruct (pass_before_disconnect a s Hs Ha Hst)
      as [(_ & Hser & Hoff) | (_ & Hon & a' & Hser & Ha' & Hlen)].
    + left. rewrite while_running_stopped by exact Hoff. auto.
    + rewrite Hrun in Hon.
      destruct (IH a' (loop_iteration s) Hser Ha'
                  (loop_iteration_phase_bound s Hst) Hon)
        as [Hl | (Hr & a'' & Hs'' & Ha'' & Hlen'')].
      * left. exact Hl.
      * right. split; [exact Hr|]. exists a''. repeat split; auto. lia.
Qed.

End Disconnect.

(** For any transport: a pass whose body raises [SerialException] is the
    last one. *)
Lemma serial_exception_stops
    {T : Type} {transport : Transport T} (s : loop_state T) (n : nat) :
  is_running (self s) = true ->
  fst (try_body s) = Raise SerialException ->
  is_running (self (loop_iteration s)) = false /\
  while_running (S n) s = loop_iteration s.
Proof.
  intros Hrun Hex.
  assert (Hoff : is_running (self (loop_iteration s)) = false).
  { unfold loop_iteration. destruct (try_body s) as [[u|[|]] s'];
      cbn [fst] in Hex; try discriminate. reflexivity. }
  split; [exact Hoff|].
  cbn [while_running]. rewrite Hrun. apply while_running_stopped, Hoff.
Qed.

(** C8.  A line on which the device disconnects after the events [a]:
    however many passes have run, the loop is either still running with
    the disconnect ahead of it, or it has stopped ([is_running] cleared)
    with the line exactly behind the disconnect, so that nothing after it
    was read; once more passes than [a] has events have been allowed, it is
    the latter, and allowing further passes changes nothing. *)
Theorem disconnect_ends_loop
    (a rest : list event) (old : option data) (n : nat) :
  no_disconnect a = true ->
  let s := _read_loop n (mk_receiver (a ++ Disconnect :: rest) true old) in
  ((is_running (self s) = false /\ ser (self s) = rest) \/
   (is_running (self s) = true /\
    exists a', ser (self s) = a' ++ Disconnect :: rest))
  /\
  (length a < n ->
   is_running (self s) = false /\ ser (self s) = rest /\
   forall m, while_running m s = s).
Proof.
  intros Ha. cbv zeta. unfold _read_loop.
  destruct (@run_before_disconnect rest n a
              (mk_loop (mk_receiver (a ++ Disconnect :: rest) true old) 0 [])
              eq_refl Ha ltac:(cbn; lia) eq_refl)
    as [(Hoff & Hser) | (Hon & a' & Hser & _ & Hlen)].
  - split; [left; auto|]. intros _. repeat split; auto.
    intros m. apply while_running_stopped, Hoff.
  - split; [right; eauto|]. intros Hn. lia.
Qed.

Lemma disconnect_ends_loop_witness :
  no_disconnect (feed [xaa; x55]) = true /\
  is_running
    (self (_read_loop 3
             (mk_receiver (feed [xaa; x55] ++ Disconnect :: feed [x11; x00])
                          true None)))
  = false /\
  ser
    (self (_read_loop 3
             (mk_receiver (feed [xaa; x55] ++ Disconnect :: feed [x11; x00])
                          true None)))
  = feed [x11; x00].
Proof.
  assert (Ha : no_disconnect (feed [xaa; x55]) = true) by reflexivity.
  split; [exact Ha|].
  destruct (@disconnect_ends_loop (feed [xaa; x55]) (feed [x11; x00]) None 3 Ha)
    as [_ Hlate].
  destruct (Hlate ltac:(cbn; lia)) as (Hoff & Hser & _).
  split; [exact Hoff | exact Hser].
Defined.

(** ** Only a read can raise *)

Lemma index_last_some (l : list byte) : l <> [] -> index_last l <> None.
Proof.
  intros Hl E. unfold index_last in E. apply nth_error_None in E.
  destruct l; [contradiction | cbn in E; lia].
Qed.

Lemma removelast_length (l : list byte) :
  length (removelast l) = length l - 1.
Proof.
  induction l as [|a [|b l] IH]; cbn [removelast length] in *; lia.
Qed.

(** Past the length and end-marker checks the packet has 17 bytes, so
    neither [packet_data[-1]] nor [struct.unpack] can fail: an exception
    out of the body is one that [read] raised. *)
Lemma try_body_raises_from_read
    {T : Type} {transport : Transport T} (s : loop_state T) (e : exn) :
  fst (try_body s) = Raise e ->
  exists k t t', ser_read k t = (Raise e, t').
Proof.
  destruct s as [[t run slot] st wr].
  destruct st as [|[|[|st]]]; open_generic; quiet_cbn;
    repeat split_step; cbn [fst]; intros Hex; try discriminate Hex;
    try (injection Hex as <-; eauto; fail).
  all: exfalso.
  all: repeat match goal with
       | H : Nat.eqb _ _ = true |- _ => apply Nat.eqb_eq in H
       end.
  all: try match goal with
       | H : index_last _ = None |- _ =>
           revert H; apply index_last_some; intros E;
           apply (f_equal (@length byte)) in E;
           rewrite length_firstn in E;
           unfold _EXPECTED_PACKET_LEN in *; cbn in *; lia
       end.
  all: match goal with
       | H : struct_unpack _ = None |- _ =>
           unfold struct_unpack in H;
           rewrite removelast_length, length_firstn in H
       end.
  all: match goal with
       | Hl : length _ = _, Hb : Byte.to_nat _ = _EXPECTED_PACKET_LEN,
         H : (if _ then _ else _) = None |- _ =>
           rewrite Hl, Hb in H; cbn in H; discriminate H
       end.
Qed.

(** * The slot between the two threads *)

Section LockingProofs.
Import Locking.

Lemma invariant_init : invariant init.
Proof.
  constructor; cbn; try (split; discriminate); auto.
  left. reflexivity.
Qed.

Ltac absurd_lock :=
  solve [ exfalso;
          repeat match goal with H : _ <-> _ |- _ => destruct H end;
          match goal with
          | H : ?a = ?a -> _ |- _ => specialize (H eq_refl); discriminate H
          end ].

Lemma invariant_step (m : move) (w : world) :
  invariant w -> invariant (step m w).
Proof.
  intros [Hl Hc Hs Hk Hr].
  destruct w as [lk sl lp cp st rt].
  unfold loop_inside, caller_inside in *.
  cbn [lock slot lpc cpc stored returned] in *.
  destruct m as [d|]; unfold step, step_loop, step_caller;
    cbn [lock slot lpc cpc stored returned];
    destruct lp as [|d'|], cp as [|  |v|v], lk as [[|]|];
    cbn in *; try absurd_lock;
    constructor; unfold loop_inside, caller_inside;
    cbn [lock slot lpc cpc stored returned fst snd];
    try (split; intros; (discriminate || reflexivity));
    try assumption; try exact I; try reflexivity;
    try (left; reflexivity);
    try (right; eauto; fail);
    try (subst; assumption);
    try (constructor; assumption).
Qed.

Lemma invariant_run (schedule : list move) :
  forall w, invariant w -> invariant (run schedule w).
Proof.
  induction schedule as [|m schedule IH]; intros w Hw; cbn.
  - exact Hw.
  - apply IH, invariant_step, Hw.
Qed.

(** C6.  Whatever the schedule: the two threads are never both inside
    their [with self.lock] blocks, the slot holds nothing or the record
    stored last, and every value [get_latest_data] has returned was
    nothing or the record stored last at the moment of the return, a
    whole record as the loop assigned it. *)
Theorem take_sees_newest_or_nothing (schedule : list move) :
  let w := run schedule init in
  (loop_inside w && caller_inside w = false) /\
  newest_or_none (slot w) (stored w) /\
  forall v hist, In (v, hist) (returned w) -> newest_or_none v hist.
Proof.
  cbv zeta. destruct (invariant_run schedule invariant_init)
    as [Hl Hc Hs Hk Hr].
  split; [|split].
  - destruct (loop_inside (run schedule init)) eqn:El; [|reflexivity].
    destruct (caller_inside (run schedule init)) eqn:Ec; [|reflexivity].
    apply proj2 in Hl. apply proj2 in Hc.
    rewrite (Hl eq_refl) in Hc. discriminate (Hc eq_refl).
  - exact Hs.
  - intros v hist Hin. rewrite Forall_forall in Hr.
    apply (Hr (v, hist) Hin).
Qed.

(** Run without interruption, the caller's four steps are
    [get_latest_data]: the value returned is the slot, and the slot is
    empty afterwards. *)
Lemma caller_steps_are_get_latest_data
    (T : Type) (rcv : MaixCamReceiver T) (w : world) :
  lock w = None -> cpc w = C_outside -> slot w = latest_data rcv ->
  let w' := run [Run_caller; Run_caller; Run_caller; Run_caller] w in
  returned w' = (fst (get_latest_data rcv), stored w) :: returned w /\
  slot w' = latest_data (snd (get_latest_data rcv)) /\
  lock w' = None /\ cpc w' = C_outside.
Proof.
  destruct w as [lk sl lp cp st rt]. cbn [lock cpc slot].
  intros -> -> ->. cbn. repeat split.
Qed.

(** Run without interruption, the loop thread's three steps are the
    assignment of the loop body: the slot holds [d], and [d] is the newest
    entry of the history. *)
Lemma loop_steps_are_store (d d1 d2 : data) (w : world) :
  lock w = None -> lpc w = L_outside ->
  let w' := run [Run_loop d; Run_loop d1; Run_loop d2] w in
  slot w' = Some d /\ stored w' = d :: stored w /\
  returned w' = returned w /\ lock w' = None /\ lpc w' = L_outside.
Proof.
  destruct w as [lk sl lp cp st rt]. cbn [lock lpc].
  intros -> ->. cbn. repeat split.
Qed.

(** The loop stores a record while the caller asks: the caller waits
    for the lock, then gets the record, and gets nothing when it asks
    again. *)
Example caller_waits_then_takes :
  returned
    (run ([Run_loop example_record; Run_caller; Run_loop example_record;
           Run_loop example_record]
          ++ repeat Run_caller 8) init)
  = [(None, [example_record]);
     (Some example_record, [example_record])].
Proof. reflexivity. Qed.

End LockingProofs.

Lemma take_sees_newest_or_nothing_witness :
  In (Some example_record, [example_record])
     (Locking.returned
        (Locking.run
           ([Locking.Run_loop example_record; Locking.Run_loop example_record;
             Locking.Run_loop example_record]
            ++ repeat Locking.Run_caller 4) Locking.init)) /\
  Locking.newest_or_none (Some example_record) [example_record].
Proof.
  assert (Hin : In (Some example_record, [example_record])
                   (Locking.returned
                      (Locking.run
                         ([Locking.Run_loop example_record;
                           Locking.Run_loop example_record;
                           Locking.Run_loop example_record]
                          ++ repeat Locking.Run_caller 4) Locking.init)))
    by (left; reflexivity).
  split; [exact Hin|].
  exact (proj2 (proj2 (take_sees_newest_or_nothing _)) _ _ Hin).
Defined.

(** * Further properties of the code *)

(** ** Checksum *)

(** X1.  [_calculate_crc8] cannot fail and returns a byte value: whatever
    the data, every index [crc ^ byte] used on the way is a position of
    the 256-entry table, and the result lies in 0..255. *)
Theorem calculate_crc8_stays_in_table (data_bytes : list byte) :
  (0 <= _calculate_crc8 data_bytes < 256)%Z /\
  forall (done : list byte) (b : byte) (todo : list byte),
    data_bytes = done ++ b :: todo ->
    Z.to_nat (Z.lxor (_calculate_crc8 done) (byte_to_Z b))
    < length _CRC8_TABLE.
Proof.
  split; [apply crc8_range|].
  intros done b todo _. apply crc8_index_in_table, crc8_range.
Qed.

(** X2.  Two byte strings that differ in exactly one position never have
    the same checksum: a single corrupted byte (so a single flipped bit) is
    always noticed. *)
Theorem single_byte_corruption_changes_crc8
    (before after : list byte) (b b' : byte) :
  b <> b' ->
  _calculate_crc8 (before ++ b :: after)
  <> _calculate_crc8 (before ++ b' :: after).
Proof. intros Hb. apply crc8_detects_byte_change, Hb. Qed.

Lemma single_byte_corruption_changes_crc8_witness :
  x64 <> x65 /\
  _calculate_crc8 ([x01] ++ x64 :: [x02; x03])
  <> _calculate_crc8 ([x01] ++ x65 :: [x02; x03]).
Proof.
  assert (Hb : x64 <> x65) by discriminate.
  split; [exact Hb|].
  exact (@single_byte_corruption_changes_crc8 [x01] [x02; x03] x64 x65 Hb).
Defined.

Lemma table_xor :
  forallb
    (fun i =>
       forallb
         (fun j =>
            (nth (Z.to_nat (Z.lxor (Z.of_nat i) (Z.of_nat j))) _CRC8_TABLE 0
             =? Z.lxor (nth i _CRC8_TABLE 0) (nth j _CRC8_TABLE 0))%Z)
         (seq 0 256))
    (seq 0 256) = true.
Proof. vm_compute. reflexivity. Qed.

Lemma table_lookup_xor (i j : Z) :
  (0 <= i < 256)%Z -> (0 <= j < 256)%Z ->
  nth (Z.to_nat (Z.lxor i j)) _CRC8_TABLE 0%Z
  = Z.lxor (nth (Z.to_nat i) _CRC8_TABLE 0%Z) (nth (Z.to_nat j) _CRC8_TABLE 0%Z).
Proof.
  intros Hi Hj. pose proof table_xor as H.
  rewrite forallb_forall in H.
  specialize (H (Z.to_nat i) ltac:(apply in_seq; lia)).
  rewrite forallb_forall in H.
  specialize (H (Z.to_nat j) ltac:(apply in_seq; lia)).
  rewrite !Z2Nat.id in H by lia. apply Z.eqb_eq, H.
Qed.

Lemma byte_xor_to_Z (a b : byte) :
  byte_to_Z (byte_xor a b) = Z.lxor (byte_to_Z a) (byte_to_Z b).
Proof.
  unfold byte_xor. rewrite byte_to_of_Z. apply Z.mod_small.
  apply lxor_byte_range; apply byte_to_Z_range.
Qed.

Lemma crc8_step_xor (c1 c2 : Z) (b1 b2 : byte) :
  (0 <= c1 < 256)%Z -> (0 <= c2 < 256)%Z ->
  crc8_step (Z.lxor c1 c2) (byte_xor b1 b2)
  = Z.lxor (crc8_step c1 b1) (crc8_step c2 b2).
Proof.
  intros H1 H2. unfold crc8_step. rewrite byte_xor_to_Z.
  replace (Z.lxor (Z.lxor c1 c2) (Z.lxor (byte_to_Z b1) (byte_to_Z b2)))
    with (Z.lxor (Z.lxor c1 (byte_to_Z b1)) (Z.lxor c2 (byte_to_Z b2))).
  - apply table_lookup_xor; apply lxor_byte_range;
      auto using byte_to_Z_range.
  - rewrite !Z.lxor_assoc. f_equal.
    rewrite <- !Z.lxor_assoc. f_equal. apply Z.lxor_comm.
Qed.

Lemma crc8_fold_xor (a : list byte) :
  forall (b : list byte) (c1 c2 : Z),
    length a = length b ->
    (0 <= c1 < 256)%Z -> (0 <= c2 < 256)%Z ->
    fold_left crc8_step (xor_bytes a b) (Z.lxor c1 c2)
    = Z.lxor (fold_left crc8_step a c1) (fold_left crc8_step b c2).
Proof.
  induction a as [|x0 a IH]; intros [|y0 b] c1 c2 Hl H1 H2;
    try discriminate Hl; cbn [xor_bytes fold_left].
  - reflexivity.
  - rewrite crc8_step_xor by assumption.
    apply IH; [cbn in Hl; lia | | ]; apply crc8_step_range; assumption.
Qed.

(** X3.  The checksum is linear over exclusive or: for two byte strings
    of the same length, the checksum of their bytewise exclusive or is the
    exclusive or of their checksums.  So whether a corruption goes
    unnoticed depends on the error pattern alone, not on the message. *)
Theorem crc8_of_xor (a b : list byte) :
  length a = length b ->
  _calculate_crc8 (xor_bytes a b)
  = Z.lxor (_calculate_crc8 a) (_calculate_crc8 b).
Proof.
  intros Hl. unfold _calculate_crc8.
  change 0%Z with (Z.lxor 0 0) at 1.
  apply crc8_fold_xor; [exact Hl | lia | lia].
Qed.

Lemma crc8_of_xor_witness :
  length [x64; x00; xc8] = length [x01; x00; x80] /\
  _calculate_crc8 (xor_bytes [x64; x00; xc8] [x01; x00; x80])
  = Z.lxor (_calculate_crc8 [x64; x00; xc8]) (_calculate_crc8 [x01; x00; x80]).
Proof.
  assert (Hl : length [x64; x00; xc8] = length [x01; x00; x80])
    by reflexivity.
  split; [exact Hl|].
  exact (@crc8_of_xor [x64; x00; xc8] [x01; x00; x80] Hl).
Defined.

(** ** Payload decoding *)

Lemma from_le_range (l : list byte) :
  (0 <= from_le l < 256 ^ Z.of_nat (length l))%Z.
Proof.
  induction l as [|b l IH].
  - cbn. lia.
  - cbn [from_le length]. rewrite Nat2Z.inj_succ, Z.pow_succ_r by lia.
    pose proof (byte_to_Z_range b). lia.
Qed.

Lemma to_from_le (l : list byte) : to_le (length l) (from_le l) = l.
Proof.
  induction l as [|b l IH]; [reflexivity|].
  cbn [length to_le from_le]. pose proof (byte_to_Z_range b) as Hb.
  f_equal.
  - unfold byte_of_Z.
    replace ((byte_to_Z b + 256 * from_le l) mod 256)%Z with (byte_to_Z b).
    + unfold byte_to_Z. rewrite N2Z.id, Byte.of_to_N. reflexivity.
    + rewrite (Z.mul_comm 256), Z.mod_add by lia.
      symmetry. apply Z.mod_small, Hb.
  - replace ((byte_to_Z b + 256 * from_le l) / 256)%Z with (from_le l);
      [exact IH|].
    rewrite (Z.mul_comm 256), Z.div_add by lia.
    rewrite (Z.div_small _ _ Hb). lia.
Qed.

Lemma struct_unpack_in_range (buf : list byte) (u : Z * Z * Z * Z * Z) :
  struct_unpack buf = Some u -> in_range (data_of_tuple u).
Proof.
  unfold struct_unpack. change _PAYLOAD_SIZE with 16.
  destruct (length buf =? 16) eqn:E; [|discriminate].
  apply Nat.eqb_eq in E. intros Hu. injection Hu as <-.
  unfold in_range, u16, u64. cbn [data_of_tuple x y w h timestamp].
  pose proof (from_le_range (firstn 2 buf)) as H0.
  pose proof (from_le_range (firstn 2 (skipn 2 buf))) as H1.
  pose proof (from_le_range (firstn 2 (skipn 4 buf))) as H2.
  pose proof (from_le_range (firstn 2 (skipn 6 buf))) as H3.
  pose proof (from_le_range (skipn 8 buf)) as H4.
  rewrite ?length_firstn, ?length_skipn, E in *.
  cbn in H0, H1, H2, H3, H4. lia.
Qed.

(** X4.  [struct.unpack('<4HQ', ...)] as the loop uses it: it fails
    exactly on a buffer that is not 16 bytes long, and what it returns for
    16 bytes are four values below 2^16 and one below 2^64. *)
Theorem struct_unpack_shape (buf : list byte) :
  (struct_unpack buf = None <-> length buf <> 16) /\
  (forall u, struct_unpack buf = Some u -> in_range (data_of_tuple u)).
Proof.
  split.
  - unfold struct_unpack. change _PAYLOAD_SIZE with 16.
    destruct (length buf =? 16) eqn:E.
    + apply Nat.eqb_eq in E. split; [discriminate | contradiction].
    + apply Nat.eqb_neq in E. split; auto.
  - intros u. apply struct_unpack_in_range.
Qed.

(** X5.  Decoding loses nothing: packing the values that
    [struct.unpack] returned for a 16-byte payload gives that payload
    back, so two different payloads never decode to the same record. *)
Theorem struct_pack_unpack (p : list byte) (u : Z * Z * Z * Z * Z) :
  struct_unpack p = Some u ->
  struct_pack (data_of_tuple u) = p.
Proof.
  intros Hu.
  assert (Hp : length p = 16).
  { unfold struct_unpack in Hu.
    destruct (length p =? _PAYLOAD_SIZE) eqn:E; [|discriminate].
    apply Nat.eqb_eq in E. exact E. }
  unfold struct_unpack in Hu. rewrite Hp in Hu. cbn [Nat.eqb _PAYLOAD_SIZE] in Hu.
  change (16 =? _PAYLOAD_SIZE) with true in Hu. injection Hu as <-.
  spell_out p Hp.
  unfold struct_pack. cbn [data_of_tuple x y w h timestamp firstn skipn].
  change 2 with (length [b; b0]) at 1. rewrite to_from_le.
  change 2 with (length [b1; b2]) at 1. rewrite to_from_le.
  change 2 with (length [b3; b4]) at 1. rewrite to_from_le.
  change 2 with (length [b5; b6]) at 1. rewrite to_from_le.
  change 8 with (length [b7; b8; b9; b10; b11; b12; b13; b14]).
  rewrite to_from_le. reflexivity.
Qed.

Lemma struct_pack_unpack_witness :
  struct_unpack (struct_pack example_record)
  = Some (100, 200, 50, 60, 1700000000000)%Z /\
  struct_pack (data_of_tuple (100, 200, 50, 60, 1700000000000)%Z)
  = struct_pack example_record.
Proof.
  assert (Hu : struct_unpack (struct_pack example_record)
               = Some (100, 200, 50, 60, 1700000000000)%Z) by reflexivity.
  split; [exact Hu|].
  exact (@struct_pack_unpack _ _ Hu).
Defined.

(** X6.  Decoding inverts the sender's layout: a record with 16-bit
    [x], [y], [w], [h] and a 64-bit [timestamp], packed as [<4HQ], is a
    16-byte payload that unpacks to the same five values. *)
Theorem struct_unpack_inverts_pack (d : data) :
  in_range d ->
  length (struct_pack d) = 16 /\
  option_map data_of_tuple (struct_unpack (struct_pack d)) = Some d.
Proof.
  intros Hd. split; [apply struct_pack_length | apply struct_unpack_pack, Hd].
Qed.

Lemma struct_unpack_inverts_pack_witness :
  in_range example_record /\
  option_map data_of_tuple (struct_unpack (struct_pack example_record))
  = Some example_record.
Proof.
  split; [exact example_record_in_range|].
  exact (proj2 (@struct_unpack_inverts_pack example_record
                  example_record_in_range)).
Defined.

(** ** What a pass stores *)

Lemma index_last_split (l : list byte) (c : byte) :
  index_last l = Some c -> l = removelast l ++ [c].
Proof.
  unfold index_last. induction l as [|a [|b l] IH]; intros H.
  - discriminate H.
  - cbn in H. injection H as ->. reflexivity.
  - cbn [removelast app]. f_equal. apply IH.
    cbn [length Nat.sub nth_error] in *. rewrite Nat.sub_0_r. exact H.
Qed.

Section Stores.
Context {T : Type} {transport : Transport T}.

Lemma pass_store_cases (s : loop_state T) :
  (written (loop_iteration s) = written s /\
   latest_data (self (loop_iteration s)) = latest_data (self s))
  \/
  (exists p c u t1 t2,
     ser_read (_EXPECTED_PACKET_LEN + length _EOF) t1
     = (Normal (p ++ [c] ++ _EOF), t2) /\
     byte_to_Z c = _calculate_crc8 p /\
     struct_unpack p = Some u /\
     written (loop_iteration s) = written s ++ [data_of_tuple u] /\
     latest_data (self (loop_iteration s)) = Some (data_of_tuple u) /\
     sync_state (loop_iteration s) = 0 /\
     ser (self (loop_iteration s)) = t2 /\
     is_running (self (loop_iteration s)) = is_running (self s)).
Proof.
  destruct s as [[t run slot] st wr].
  destruct st as [|[|[|st]]]; open_generic; quiet_cbn;
    repeat split_step; try (left; split; reflexivity).
  all: right.
  all: match goal with
       | Hb : Nat.eqb (Byte.to_nat ?b) _EXPECTED_PACKET_LEN = true,
         Hl : Nat.eqb (length ?a) (Byte.to_nat ?b + 2) = true,
         He : bytes_eqb (skipn (Byte.to_nat ?b) ?a) _EOF = true,
         Hi : index_last (firstn (Byte.to_nat ?b) ?a) = Some ?c,
         Hc : Z.eqb (byte_to_Z ?c) _ = true,
         Hu : struct_unpack _ = Some ?u,
         Hr : ser_read (Byte.to_nat ?b + 2) ?t1 = (Normal ?a, ?t2) |- _ =>
           apply Nat.eqb_eq in Hb; apply bytes_eqb_eq in He;
           apply Z.eqb_eq in Hc; apply index_last_split in Hi;
           rewrite Hb in *;
           assert (Ha : a = removelast (firstn _EXPECTED_PACKET_LEN a)
                            ++ c :: _EOF)
             by (rewrite <- (firstn_skipn _EXPECTED_PACKET_LEN a) at 1;
                 rewrite He; rewrite Hi at 1; rewrite <- app_assoc;
                 reflexivity);
           exists (removelast (firstn _EXPECTED_PACKET_LEN a)), c, u, t1, t2;
           repeat split; try assumption;
           rewrite <- Ha; exact Hr
       end.
Qed.

(** X7.  A pass stores a record only for a frame that passed every
    check: either the pass leaves the history and the slot alone, or a read
    of 19 bytes delivered sixteen payload bytes [p], a byte [c] and the end
    marker with [c] the CRC-8 of [p], and what is stored (appended to the
    history and put in the slot) is [p] unpacked; the pass then ends at
    phase 0 right behind those bytes, still running if it was. *)
Theorem pass_stores_only_checked_frames (s : loop_state T) :
  (written (loop_iteration s) = written s /\
   latest_data (self (loop_iteration s)) = latest_data (self s))
  \/
  (exists p c u t1 t2,
     ser_read (_EXPECTED_PACKET_LEN + length _EOF) t1
     = (Normal (p ++ [c] ++ _EOF), t2) /\
     byte_to_Z c = _calculate_crc8 p /\
     struct_unpack p = Some u /\
     written (loop_iteration s) = written s ++ [data_of_tuple u] /\
     latest_data (self (loop_iteration s)) = Some (data_of_tuple u) /\
     sync_state (loop_iteration s) = 0 /\
     ser (self (loop_iteration s)) = t2 /\
     is_running (self (loop_iteration s)) = is_running (self s)).
Proof. exact (pass_store_cases s). Qed.

Lemma last_cons_default (A : Type) (a d0 : A) (l : list A) :
  last (a :: l) d0 = last l a.
Proof.
  revert a d0. induction l as [|b l IH]; intros a d0; [reflexivity|].
  change (last (a :: b :: l) d0) with (last (b :: l) d0).
  rewrite (IH b d0), (IH b a). reflexivity.
Qed.

(** Over any number of passes: the history only grows, the slot follows
    its last entry, and every entry is in range. *)
Lemma run_store_invariant (n : nat) :
  forall s : loop_state T,
    exists added,
      written (while_running n s) = written s ++ added /\
      latest_data (self (while_running n s))
      = last (map Some added) (latest_data (self s)) /\
      Forall in_range added.
Proof.
  induction n as [|n IH]; intros s.
  - exists []. cbn. rewrite app_nil_r. auto.
  - cbn [while_running]. destruct (is_running (self s)).
    + destruct (IH (loop_iteration s)) as (added & Hw & Hl & Hr).
      destruct (pass_store_cases s)
        as [(Ew & El) | (p & c & u & t1 & t2 & _ & _ & Hu & Ew & El & _)].
      * exists added. rewrite Hw, Hl, Ew, El. auto.
      * exists (data_of_tuple u :: added).
        rewrite Hw, Hl, Ew, El, <- app_assoc. cbn [map app].
        rewrite last_cons_default. repeat split; auto.
        constructor; [eapply struct_unpack_in_range; eauto | exact Hr].
    + exists []. cbn. rewrite app_nil_r. auto.
Qed.

(** X8.  The slot is overwritten, never queued: after any number of
    passes, on any transport, it holds the record the loop stored last, or
    still what it held before the loop ran if the loop has stored
    nothing. *)
Theorem slot_holds_last_stored (rcv : MaixCamReceiver T) (n : nat) :
  latest_data (self (_read_loop n rcv))
  = last (map Some (written (_read_loop n rcv))) (latest_data rcv).
Proof.
  unfold _read_loop.
  destruct (run_store_invariant n (mk_loop rcv 0 [])) as (added & Hw & Hl & _).
  cbn [written self app] in *. rewrite Hw. exact Hl.
Qed.

(** X9.  Every record the loop stores, on any transport, has [x], [y],
    [w], [h] below 2^16 and [timestamp] below 2^64. *)
Theorem stored_records_in_range (rcv : MaixCamReceiver T) (n : nat) :
  Forall in_range (written (_read_loop n rcv)).
Proof.
  unfold _read_loop.
  destruct (run_store_invariant n (mk_loop rcv 0 [])) as (added & Hw & _ & Hr).
  cbn [written app] in Hw. rewrite Hw. exact Hr.
Qed.

End Stores.

(** ** Streams of frames *)

Lemma run_frames (t : list event) (ds : list data) :
  forall (old : option data) (wr : list data) (n : nat),
    Forall in_range ds ->
    while_running (2 * length ds + n)
      (mk_loop
         (mk_receiver (feed (concat (map encode ds)) ++ t) true old) 0 wr)
    = while_running n
        (mk_loop (mk_receiver t true (last (map Some ds) old)) 0 (wr ++ ds)).
Proof.
  induction ds as [|d ds IH]; intros old wr n Hds.
  - cbn. rewrite app_nil_r. reflexivity.
  - inversion Hds as [|? ? Hd Hds']; subst.
    pose proof (struct_unpack_pack Hd) as Hu.
    destruct (struct_unpack (struct_pack d)) as [u|] eqn:E; [|discriminate].
    cbn [option_map] in Hu. injection Hu as Hu.
    cbn [map concat length]. rewrite feed_app, <- app_assoc.
    replace (2 * S (length ds) + n) with (2 + (2 * length ds + n)) by lia.
    unfold encode at 1.
    rewrite (@run_valid_frame _ old wr _ u _ E), Hu.
    rewrite IH by exact Hds'.
    rewrite <- app_assoc. cbn [app]. rewrite last_cons_default.
    reflexivity.
Qed.

(** X10.  Valid frames one behind the other are decoded one by one, in
    order, two passes each: the history is the list of their records and
    the slot ends up holding the last of them (the earlier ones were
    overwritten). *)
Theorem frames_decoded_in_order
    (ds : list data) (old : option data) (n : nat) :
  Forall in_range ds ->
  _read_loop (2 * length ds + n)
    (mk_receiver (feed (concat (map encode ds))) true old)
  = mk_loop (mk_receiver [] true (last (map Some ds) old)) 0 ds.
Proof.
  intros Hds. unfold _read_loop.
  rewrite <- (app_nil_r (feed _)).
  rewrite (@run_frames [] ds old [] n Hds), run_idle. reflexivity.
Qed.

Lemma frames_decoded_in_order_witness :
  Forall in_range
    [example_record; {| x := 1; y := 2; w := 3; h := 4; timestamp := 5 |}%Z] /\
  _read_loop 4
    (mk_receiver
       (feed (concat
                (map encode
                   [example_record;
                    {| x := 1; y := 2; w := 3; h := 4; timestamp := 5 |}%Z])))
       true None)
  = mk_loop
      (mk_receiver []
         true (Some {| x := 1; y := 2; w := 3; h := 4; timestamp := 5 |}%Z))
      0 [example_record; {| x := 1; y := 2; w := 3; h := 4; timestamp := 5 |}%Z].
Proof.
  assert (Hds : Forall in_range
                  [example_record;
                   {| x := 1; y := 2; w := 3; h := 4; timestamp := 5 |}%Z]).
  { repeat constructor; cbn; lia. }
  split; [exact Hds|].
  exact (@frames_decoded_in_order _ None 0 Hds).
Defined.

(** ** Frames cut short or ended wrongly *)

Lemma wire_read_short (l : list byte) :
  forall (k : nat) (t : list event),
    length l < k ->
    wire_read k (feed l ++ Timeout :: t) = (Normal l, t).
Proof.
  unfold feed. induction l as [|b l IH]; intros k t Hk.
  - destruct k; [cbn in Hk; lia | reflexivity].
  - destruct k; [cbn in Hk; lia|]. cbn [map app wire_read].
    rewrite IH by (cbn in Hk; lia). reflexivity.
Qed.

Ltac read_with H :=
  rewrite H;
  cbn -[Byte.to_nat _calculate_crc8 struct_unpack index_last byte_to_Z
        bytes_eqb _EXPECTED_PACKET_LEN firstn skipn removelast length].

Section BodyReads.
Context {T : Type} {transport : Transport T}.
Variables (t t1 t2 t3 : T) (run : bool) (slot : option data)
          (wr : list data) (full : list byte).
Hypothesis read_second : ser_read 1 t = (Normal [x55], t1).
Hypothesis read_length : ser_read 1 t1 = (Normal [x11], t2).
Hypothesis read_body : ser_read 19 t2 = (Normal full, t3).

Ltac to_body_read :=
  rewrite read_second; quiet_cbn; rewrite bytes_eqb_refl; quiet_cbn;
  rewrite read_length; quiet_cbn;
  change (Byte.to_nat x11) with 17; change _EXPECTED_PACKET_LEN with 17;
  cbn [Nat.eqb negb Nat.add self ser is_running latest_data sync_state
       written];
  rewrite read_body;
  cbn -[_calculate_crc8 struct_unpack index_last byte_to_Z bytes_eqb
        firstn skipn removelast length].

(** The second marker byte and the length byte 17 are read; the read of
    the 19 bytes behind them comes back short (or long). *)
Lemma pass_short_body :
  length full <> 19 ->
  loop_iteration (mk_loop (mk_receiver t run slot) 1 wr)
  = mk_loop (mk_receiver t3 run slot) 0 wr.
Proof.
  intros Hl. open_generic. to_body_read.
  apply Nat.eqb_neq in Hl. rewrite Hl. reflexivity.
Qed.

(** All 19 bytes arrive, but the last two are not the end marker. *)
Lemma pass_wrong_end_marker :
  length full = 19 ->
  skipn 17 full <> _EOF ->
  loop_iteration (mk_loop (mk_receiver t run slot) 1 wr)
  = mk_loop (mk_receiver t3 run slot) 0 wr.
Proof.
  intros Hl He. open_generic. to_body_read.
  rewrite Hl. cbn [Nat.eqb negb].
  rewrite (bytes_eqb_neq He). reflexivity.
Qed.

End BodyReads.

(** X11.  A frame cut short: after the start marker and the length byte
    17, fewer than 19 bytes arrive before the read times out.  The pass
    gives the attempt up there, drops the bytes it got, stores nothing and
    is back at phase 0, still running; a valid frame that arrives next is
    decoded. *)
Theorem truncated_frame_dropped
    (partial : list byte) (t : list event) (d : data)
    (old : option data) (n : nat) :
  length partial < 19 ->
  in_range d ->
  _read_loop 2
    (mk_receiver (feed ([xaa; x55; x11] ++ partial) ++ Timeout :: t) true old)
  = mk_loop (mk_receiver t true old) 0 []
  /\
  _read_loop (4 + n)
    (mk_receiver
       (feed ([xaa; x55; x11] ++ partial) ++ Timeout :: feed (encode d))
       true old)
  = mk_loop (mk_receiver [] true (Some d)) 0 [d].
Proof.
  intros Hp Hd.
  assert (E2 : forall t' wr,
             while_running 2
               (mk_loop
                  (mk_receiver
                     (feed ([xaa; x55; x11] ++ partial) ++ Timeout :: t')
                     true old) 0 wr)
             = mk_loop (mk_receiver t' true old) 0 wr).
  { intros t' wr. cbn [app feed map while_running self is_running].
    fold (feed partial).
    rewrite pass_seek_first. cbn [self is_running].
    change (if Byte.eqb xaa xaa then 1 else 0) with 1.
    apply (@pass_short_body _ wire_transport _
             (Rx x11 :: feed partial ++ Timeout :: t')
             (feed partial ++ Timeout :: t') t' true old wr partial).
    - reflexivity.
    - reflexivity.
    - apply wire_read_short, Hp.
    - lia. }
  unfold _read_loop. split; [apply E2|].
  change (4 + n) with (2 + (2 + n)). rewrite while_running_add, E2.
  pose proof (struct_unpack_pack Hd) as Hu.
  destruct (struct_unpack (struct_pack d)) as [u|] eqn:E; [|discriminate].
  cbn [option_map] in Hu. injection Hu as Hu.
  unfold encode. rewrite <- (app_nil_r (feed _)).
  rewrite (@run_valid_frame [] old [] _ u n E), run_idle, Hu. reflexivity.
Qed.

Lemma truncated_frame_dropped_witness :
  length [x64; x00; xaa; x55] < 19 /\
  in_range example_record /\
  _read_loop 4
    (mk_receiver
       (feed ([xaa; x55; x11] ++ [x64; x00; xaa; x55])
        ++ Timeout :: feed (encode example_record))
       true None)
  = mk_loop (mk_receiver [] true (Some example_record)) 0 [example_record].
Proof.
  assert (Hp : length [x64; x00; xaa; x55] < 19) by (cbn; lia).
  split; [exact Hp|]. split; [exact example_record_in_range|].
  exact (proj2 (@truncated_frame_dropped [x64; x00; xaa; x55] []
                  example_record None 0 Hp example_record_in_range)).
Defined.

Lemma skipn_app_exact (A : Type) (a b : list A) :
  skipn (length a) (a ++ b) = b.
Proof. induction a; cbn; auto. Qed.

(** X12.  A frame of the right length whose last two bytes are not
    [0x55 0xAA] is dropped whatever its checksum byte: all 22 bytes are
    consumed in two passes, nothing is stored, the slot is untouched and
    the loop is back at phase 0. *)
Theorem wrong_end_marker_dropped
    (body trailer : list byte) (t : list event) (old : option data) :
  length body = 17 ->
  length trailer = 2 ->
  trailer <> [x55; xaa] ->
  _read_loop 2
    (mk_receiver (feed ([xaa; x55; x11] ++ body ++ trailer) ++ t) true old)
  = mk_loop (mk_receiver t true old) 0 [].
Proof.
  intros Hb Ht Hne. unfold _read_loop.
  cbn [app feed map while_running self is_running].
  fold (feed (body ++ trailer)).
  rewrite pass_seek_first. cbn [self is_running].
  change (if Byte.eqb xaa xaa then 1 else 0) with 1.
  apply (@pass_wrong_end_marker _ wire_transport _
           (Rx x11 :: feed (body ++ trailer) ++ t)
           (feed (body ++ trailer) ++ t) t true old [] (body ++ trailer)).
  - reflexivity.
  - reflexivity.
  - replace 19 with (length (body ++ trailer))
      by (rewrite length_app; lia).
    apply wire_read_feed.
  - rewrite length_app; lia.
  - rewrite <- Hb, skipn_app_exact. exact Hne.
Qed.

Lemma wrong_end_marker_dropped_witness :
  length (struct_pack example_record ++ [xe1]) = 17 /\
  length [xaa; x55] = 2 /\
  [xaa; x55] <> [x55; xaa] /\
  _read_loop 2
    (mk_receiver
       (feed ([xaa; x55; x11] ++ (struct_pack example_record ++ [xe1])
              ++ [xaa; x55]) ++ [])
       true None)
  = mk_loop (mk_receiver [] true None) 0 [].
Proof.
  assert (Hb : length (struct_pack example_record ++ [xe1]) = 17)
    by reflexivity.
  assert (Ht : length [xaa; x55] = 2) by reflexivity.
  assert (Hne : [xaa; x55] <> [x55; xaa]) by discriminate.
  split; [exact Hb|]. split; [exact Ht|]. split; [exact Hne|].
  exact (@wrong_end_marker_dropped _ _ [] None Hb Ht Hne).
Defined.

(** ** Noise around frames *)

(** X13.  Bytes among which there is no [0xAA] are skipped one per pass,
    and a valid frame behind them is decoded: from any slot content, the
    loop ends with the frame's record stored, the only one. *)
Theorem noise_then_frame_decoded
    (g : list byte) (d : data) (old : option data) (n : nat) :
  no_aa g = true ->
  in_range d ->
  _read_loop (length g + (2 + n))
    (mk_receiver (feed (g ++ encode d)) true old)
  = mk_loop (mk_receiver [] true (Some d)) 0 [d].
Proof.
  intros Hg Hd. unfold _read_loop.
  pose proof (struct_unpack_pack Hd) as Hu.
  destruct (struct_unpack (struct_pack d)) as [u|] eqn:E; [|discriminate].
  cbn [option_map] in Hu. injection Hu as Hu.
  rewrite feed_app, while_running_add, run_noise by exact Hg.
  unfold encode. rewrite <- (app_nil_r (feed _)).
  rewrite (@run_valid_frame [] old [] _ u n E), run_idle, Hu. reflexivity.
Qed.

Lemma noise_then_frame_decoded_witness :
  no_aa [x00; x55; x11; xff] = true /\
  in_range example_record /\
  _read_loop 6
    (mk_receiver (feed ([x00; x55; x11; xff] ++ encode example_record))
                 true None)
  = mk_loop (mk_receiver [] true (Some example_record)) 0 [example_record].
Proof.
  assert (Hg : no_aa [x00; x55; x11; xff] = true) by reflexivity.
  split; [exact Hg|]. split; [exact example_record_in_range|].
  exact (@noise_then_frame_decoded _ example_record None 0 Hg
           example_record_in_range).
Defined.

(** X14.  One stray [0xAA] directly before a frame costs the frame: the
    stray byte is taken as the first marker byte, the frame's own [0xAA]
    fails the second check and is dropped, and when payload and checksum
    byte hold no [0xAA] nothing of the frame is recognised.  After 24
    passes the line is used up and nothing was stored, valid checksum or
    not. *)
Theorem stray_marker_byte_loses_frame
    (p : list byte) (c : byte) (n : nat) :
  length p = 16 ->
  no_aa (p ++ [c]) = true ->
  _read_loop (24 + n) (started (feed ([xaa] ++ frame p c)))
  = mk_loop (mk_receiver [] true None) 0 [].
Proof.
  intros Hp Hg. unfold _read_loop, started, frame.
  assert (Hnoise : no_aa ([x55; x11] ++ p ++ [c] ++ [x55]) = true).
  { unfold no_aa in *. rewrite (app_assoc p [c] [x55]).
    rewrite forallb_app, (forallb_app _ (p ++ [c])), Hg. reflexivity. }
  assert (Hlen : length ([x55; x11] ++ p ++ [c] ++ [x55]) = 20)
    by (cbn [app length]; rewrite !length_app; cbn [length]; lia).
  replace ([xaa] ++ [xaa; x55] ++ [x11] ++ p ++ [c] ++ [x55; xaa])
    with ([xaa; xaa] ++ ([x55; x11] ++ p ++ [c] ++ [x55]) ++ [xaa])
    by (cbn [app]; rewrite <- !app_assoc; reflexivity).
  set (g := [x55; x11] ++ p ++ [c] ++ [x55]) in *.
  change (24 + n) with (2 + (20 + (2 + n))).
  rewrite (feed_app [xaa; xaa]), (feed_app g), (while_running_add 2).
  change (feed [xaa; xaa] ++ ?r) with (Rx xaa :: Rx xaa :: r).
  cbn [while_running self is_running].
  rewrite pass_seek_first. cbn [self is_running].
  change (if Byte.eqb xaa xaa then 1 else 0) with 1.
  rewrite pass_seek_second_other by discriminate.
  rewrite while_running_add, <- Hlen.
  rewrite run_noise by exact Hnoise.
  change (feed [xaa]) with [Rx xaa].
  change (2 + n) with (S (S n)). cbn [while_running self is_running].
  rewrite pass_seek_first. cbn [self is_running].
  change (if Byte.eqb xaa xaa then 1 else 0) with 1.
  replace (loop_iteration (mk_loop (mk_receiver [] true None) 1 []))
    with (mk_loop (mk_receiver (T := list event) [] true None) 0 [])
    by reflexivity.
  apply run_idle.
Qed.

Lemma stray_marker_byte_loses_frame_witness :
  length (struct_pack example_record) = 16 /\
  no_aa (struct_pack example_record ++ [xe1]) = true /\
  _read_loop 24
    (started (feed ([xaa] ++ frame (struct_pack example_record) xe1)))
  = mk_loop (mk_receiver [] true None) 0 [].
Proof.
  assert (Hp : length (struct_pack example_record) = 16) by reflexivity.
  assert (Hg : no_aa (struct_pack example_record ++ [xe1]) = true)
    by reflexivity.
  split; [exact Hp|]. split; [exact Hg|].
  exact (@stray_marker_byte_loses_frame _ xe1 0 Hp Hg).
Defined.

(** ** What stops the loop, and what does not *)

Lemma wire_read_no_disconnect (k : nat) :
  forall t : list event,
    no_disconnect t = true ->
    match ser_read k t with
    | (Raise SerialException, _) => False
    | (_, t') => no_disconnect t' = true
    end.
Proof.
  unfold ser_read, wire_transport.
  induction k as [|k IH]; intros t Ht; [exact Ht|].
  destruct t as [|[b| | |] t]; cbn [wire_read]; cbn in Ht;
    try exact Ht; try discriminate Ht; try reflexivity.
  specialize (IH t Ht).
  destruct (wire_read k t) as [[r|[|]] t']; exact IH.
Qed.

Lemma wire_read_no_fault (k : nat) :
  forall t : list event,
    no_fault t = true ->
    match ser_read k t with
    | (Raise Exception, _) => False
    | (_, t') => no_fault t' = true
    end.
Proof.
  unfold ser_read, wire_transport.
  induction k as [|k IH]; intros t Ht; [exact Ht|].
  destruct t as [|[b| | |] t]; cbn [wire_read]; cbn in Ht;
    try exact Ht; try discriminate Ht; try reflexivity.
  specialize (IH t Ht).
  destruct (wire_read k t) as [[r|[|]] t']; exact IH.
Qed.

Ltac quiet_read_cbn :=
  cbn -[Byte.to_nat _calculate_crc8 struct_unpack index_last byte_to_Z
        bytes_eqb _EXPECTED_PACKET_LEN ser_read].

(** Case analysis as [split_step], with what is known of the line carried
    through every read. *)
Ltac guarded_step lemma P :=
  match goal with
  | Ht : P ?t = true |- context [ser_read ?k ?t] =>
      let H := fresh "Hrd" in
      pose proof (lemma k t Ht) as H;
      destruct (ser_read k t) as [[?|[|]] ?]; try contradiction
  | |- context [bytes_eqb ?a ?b] => destruct (bytes_eqb a b) eqn:?
  | |- context [Nat.eqb ?a ?b] => destruct (Nat.eqb a b) eqn:?
  | |- context [Z.eqb ?a ?b] => destruct (Z.eqb a b) eqn:?
  | |- context [index_last ?a] => destruct (index_last a) eqn:?
  | |- context [struct_unpack ?a] => destruct (struct_unpack a) eqn:?
  | |- context [match ?x with [] => _ | _ :: _ => _ end] => destruct x eqn:?
  end; quiet_read_cbn.

Lemma pass_no_disconnect (s : loop_state (list event)) :
  no_disconnect (ser (self s)) = true ->
  is_running (self (loop_iteration s)) = is_running (self s) /\
  no_disconnect (ser (self (loop_iteration s))) = true.
Proof.
  destruct s as [[t run slot] st wr]. cbn [self ser is_running].
  intros Ht.
  destruct st as [|[|[|st]]]; open_generic; quiet_read_cbn;
    repeat guarded_step wire_read_no_disconnect no_disconnect;
    split; (reflexivity || assumption).
Qed.

Lemma run_no_disconnect (n : nat) :
  forall s : loop_state (list event),
    no_disconnect (ser (self s)) = true ->
    is_running (self (while_running n s)) = is_running (self s).
Proof.
  induction n as [|n IH]; intros s Hs; [reflexivity|].
  cbn [while_running]. destruct (is_running (self s)) eqn:E.
  - destruct (pass_no_disconnect s Hs) as [Hr Hd].
    rewrite (IH _ Hd), Hr. exact E.
  - exact E.
Qed.

(** X15.  Nothing but a disconnect stops the loop by itself: on a line
    without one, whatever else it carries (noise, broken frames, timeouts,
    reads that fail otherwise), [is_running] is still set after any number
    of passes. *)
Theorem only_disconnect_stops_loop
    (t : list event) (old : option data) (n : nat) :
  no_disconnect t = true ->
  is_running (self (_read_loop n (mk_receiver t true old))) = true.
Proof.
  intros Ht. unfold _read_loop.
  rewrite run_no_disconnect by exact Ht. reflexivity.
Qed.

Lemma only_disconnect_stops_loop_witness :
  no_disconnect ([Rx xaa; Rx x55; Fault; Timeout] ++ feed [x11; xaa; xaa])
  = true /\
  is_running
    (self (_read_loop 9
             (mk_receiver
                ([Rx xaa; Rx x55; Fault; Timeout] ++ feed [x11; xaa; xaa])
                true None)))
  = true.
Proof.
  assert (Ht : no_disconnect
                 ([Rx xaa; Rx x55; Fault; Timeout] ++ feed [x11; xaa; xaa])
               = true) by reflexivity.
  split; [exact Ht|].
  exact (@only_disconnect_stops_loop _ None 9 Ht).
Defined.

(** The branches in which [packet_data[-1]] or [struct.unpack] would
    fail, which the length check has excluded. *)
Ltac no_internal_raise :=
  exfalso;
  repeat match goal with
         | H : Nat.eqb _ _ = true |- _ => apply Nat.eqb_eq in H
         end;
  first
    [ match goal with
      | H : index_last _ = None |- _ =>
          let E := fresh "E" in
          revert H; apply index_last_some; intros E;
          apply (f_equal (@length byte)) in E;
          rewrite length_firstn in E;
          unfold _EXPECTED_PACKET_LEN in *; cbn in *; lia
      end
    | match goal with
      | Hl : length _ = _, Hb : Byte.to_nat _ = _EXPECTED_PACKET_LEN,
        H : struct_unpack _ = None |- _ =>
          unfold struct_unpack in H;
          rewrite removelast_length, length_firstn in H;
          rewrite Hl, Hb in H; cbn in H; discriminate H
      end ].

Lemma pass_no_fault (s : loop_state (list event)) :
  no_fault (ser (self s)) = true ->
  sync_state s <= 1 ->
  no_fault (ser (self (loop_iteration s))) = true /\
  (is_running (self (loop_iteration s)) = true ->
   sync_state (loop_iteration s) <= 1).
Proof.
  destruct s as [[t run slot] st wr]. cbn [self ser is_running sync_state].
  intros Ht Hst.
  destruct st as [|[|st]]; [| |lia]; open_generic; quiet_read_cbn;
    repeat guarded_step wire_read_no_fault no_fault;
    split; try assumption; try reflexivity; intros Hrun;
    try discriminate Hrun; try lia; no_internal_raise.
Qed.

Lemma run_no_fault (n : nat) :
  forall s : loop_state (list event),
    no_fault (ser (self s)) = true ->
    sync_state s <= 1 ->
    is_running (self (while_running n s)) = true ->
    sync_state (while_running n s) <= 1.
Proof.
  induction n as [|n IH]; intros s Hs Hst Hrun; [exact Hst|].
  cbn [while_running] in *. destruct (is_running (self s)) eqn:E.
  - destruct (pass_no_fault s Hs Hst) as [Hf Hp].
    destruct (is_running (self (loop_iteration s))) eqn:E'.
    + apply IH; auto.
    + rewrite while_running_stopped in * by exact E'. congruence.
  - exact Hst.
Qed.

(** X16.  Between passes the loop never holds half a frame: on a line on
    which no read fails other than by a disconnect, the phase of a running
    loop is 0 or 1 after any number of passes, never 2. *)
Theorem running_loop_between_frames
    (t : list event) (old : option data) (n : nat) :
  no_fault t = true ->
  is_running (self (_read_loop n (mk_receiver t true old))) = true ->
  sync_state (_read_loop n (mk_receiver t true old)) <= 1.
Proof.
  intros Ht Hrun. unfold _read_loop in *.
  apply run_no_fault; [exact Ht | cbn; lia | exact Hrun].
Qed.

Lemma running_loop_between_frames_witness :
  no_fault (feed [xaa; x55; x11; x00; xaa; x55]) = true /\
  is_running
    (self (_read_loop 2 (mk_receiver (feed [xaa; x55; x11; x00; xaa; x55])
                                     true None)))
  = true /\
  sync_state
    (_read_loop 2 (mk_receiver (feed [xaa; x55; x11; x00; xaa; x55])
                               true None))
  <= 1.
Proof.
  assert (Ht : no_fault (feed [xaa; x55; x11; x00; xaa; x55]) = true)
    by reflexivity.
  assert (Hrun : is_running
                   (self (_read_loop 2
                            (mk_receiver (feed [xaa; x55; x11; x00; xaa; x55])
                                         true None)))
                 = true) by reflexivity.
  split; [exact Ht|]. split; [exact Hrun|].
  exact (@running_loop_between_frames _ None 2 Ht Hrun).
Defined.

(** ** Consume on read, once the sender has stopped *)

Lemma run_exhausted (n : nat) :
  forall (st : nat) (slot : option data) (wr : list data),
    st <= 2 ->
    exists st',
      st' <= 2 /\
      while_running n (mk_loop (mk_receiver [] true slot) st wr)
      = mk_loop (mk_receiver [] true slot) st' wr.
Proof.
  induction n as [|n IH]; intros st slot wr Hst.
  - exists st. auto.
  - cbn [while_running self is_running].
    destruct st as [|[|[|st]]]; [| | |lia];
      (replace (loop_iteration (mk_loop (mk_receiver [] true slot) _ wr))
         with (mk_loop (mk_receiver (T := list event) [] true slot) 0 wr)
         by reflexivity);
      apply IH; lia.
Qed.

(** X17.  The last record is not seen twice once the sender has gone
    quiet: with nothing more arriving on the line, [get_latest_data]
    returns what the slot holds, and however many passes the loop makes
    afterwards, the next [get_latest_data] returns [None]. *)
Theorem stale_record_not_repeated
    (slot : option data) (st : nat) (wr : list data) (n : nat) :
  st <= 2 ->
  fst (get_latest_data (mk_receiver (T := list event) [] true slot)) = slot /\
  fst (get_latest_data
         (self (while_running n
                  (mk_loop (snd (get_latest_data (mk_receiver [] true slot)))
                           st wr))))
  = None.
Proof.
  intros Hst. split; [reflexivity|].
  cbn [get_latest_data snd ser is_running].
  destruct (@run_exhausted n st None wr Hst) as (st' & _ & E).
  rewrite E. reflexivity.
Qed.

Lemma stale_record_not_repeated_witness :
  0 <= 2 /\
  fst (get_latest_data
         (self (while_running 5
                  (mk_loop
                     (snd (get_latest_data
                             (mk_receiver (T := list event) []
                                          true (Some example_record))))
                     0 [example_record]))))
  = None.
Proof.
  split; [lia|].
  exact (proj2 (@stale_record_not_repeated (Some example_record) 0
                  [example_record] 5 ltac:(lia))).
Defined.

(** ** Exceptions *)

Section Raises.
Context {T : Type} {transport : Transport T}.
Variables (t t1 t2 : T) (run : bool) (slot : option data) (wr : list data).

(** X18.  Nothing in the loop body fails by itself: past the length and
    end-marker checks the packet has 17 bytes, so [packet_data[-1]] and
    [struct.unpack] succeed, and the table lookups of the checksum stay
    inside the table.  An exception that leaves the body, of either kind,
    is one that a [read] raised. *)
Theorem exceptions_come_from_read (s : loop_state T) (e : exn) :
  fst (try_body s) = Raise e ->
  exists k t0 t0', ser_read k t0 = (Raise e, t0').
Proof. apply try_body_raises_from_read. Qed.

(** X19.  The start marker and then silence: when the read of the length
    byte times out, the attempt is given up and the pass ends at phase 0
    with nothing stored; no further read is made in that pass. *)
Theorem length_byte_timeout_aborts :
  ser_read 1 t = (Normal [x55], t1) ->
  ser_read 1 t1 = (Normal [], t2) ->
  loop_iteration (mk_loop (mk_receiver t run slot) 1 wr)
  = mk_loop (mk_receiver t2 run slot) 0 wr.
Proof.
  intros H1 H2. open_generic. rewrite H1. quiet_cbn.
  rewrite bytes_eqb_refl. quiet_cbn. rewrite H2. reflexivity.
Qed.

End Raises.

Lemma exceptions_come_from_read_witness :
  fst (try_body (mk_loop (mk_receiver [Rx x55; Fault] true None) 1 []))
  = Raise Exception /\
  exists k t0 t0',
    ser_read k t0 = (Raise Exception, t0' : list event).
Proof.
  assert (H : fst (try_body
                     (mk_loop (mk_receiver [Rx x55; Fault] true None) 1 []))
              = Raise Exception) by reflexivity.
  split; [exact H|].
  exact (@exceptions_come_from_read _ wire_transport _ _ H).
Defined.

Lemma length_byte_timeout_aborts_witness :
  ser_read 1 (Rx x55 :: Timeout :: feed [x11])
  = (Normal [x55], Timeout :: feed [x11]) /\
  ser_read 1 (Timeout :: feed [x11]) = (Normal [], feed [x11]) /\
  loop_iteration
    (mk_loop (mk_receiver (Rx x55 :: Timeout :: feed [x11]) true None) 1 [])
  = mk_loop (mk_receiver (feed [x11]) true None) 0 [].
Proof.
  assert (H1 : ser_read 1 (Rx x55 :: Timeout :: feed [x11])
               = (Normal [x55], Timeout :: feed [x11])) by reflexivity.
  assert (H2 : ser_read 1 (Timeout :: feed [x11]) = (Normal [], feed [x11]))
    by reflexivity.
  split; [exact H1|]. split; [exact H2|].
  exact (@length_byte_timeout_aborts _ wire_transport _ _ _ true None [] H1 H2).
Defined.

(** ** The slot between the two threads: nothing is handed out twice *)

Section LockingAccounts.
Import Locking.

Ltac absurd_owner :=
  solve [ exfalso;
          repeat match goal with H : _ <-> _ |- _ => destruct H end;
          match goal with
          | H : ?a = ?a -> _ |- _ => specialize (H eq_refl); discriminate H
          end ].

Lemma accounted_init : accounted init.
Proof. split; [cbn; lia | intros v H; discriminate H]. Qed.

Lemma accounted_step (m : move) (w : world) :
  invariant w -> accounted w -> accounted (step m w).
Proof.
  intros [Hl Hc Hs Hk Hr] [Hacc Hclr].
  destruct w as [lk sl lp cp st rt].
  unfold accounted, pending, loop_inside, caller_inside in *.
  cbn [lock slot lpc cpc stored returned] in *.
  destruct m as [d|]; unfold step, step_loop, step_caller;
    cbn [lock slot lpc cpc stored returned];
    destruct lp as [|d'|], cp as [| |v|v], lk as [[|]|];
    cbn in *; try absurd_owner;
    try (specialize (Hclr _ eq_refl); subst sl);
    (split; [|intros v' Hv'; try discriminate Hv'; auto]);
    repeat match goal with
           | v : option data |- _ => destruct v
           end;
    cbn in *; try lia; try discriminate; try reflexivity.
Qed.

Lemma accounted_run (schedule : list move) :
  forall w, invariant w -> accounted w ->
            invariant (run schedule w) /\ accounted (run schedule w).
Proof.
  induction schedule as [|m schedule IH]; intros w Hi Ha; cbn.
  - auto.
  - apply IH; [apply invariant_step, Hi | apply accounted_step; assumption].
Qed.

(** X20.  Consume on read holds across the two threads: whatever the
    schedule, [get_latest_data] has handed out at most as many records as
    the loop has stored, so no stored record is handed out twice. *)
Theorem records_handed_out_at_most_once (schedule : list move) :
  delivered (returned (run schedule init))
  <= length (stored (run schedule init)).
Proof.
  destruct (accounted_run schedule invariant_init accounted_init)
    as [_ [Hacc _]].
  lia.
Qed.

End LockingAccounts.

(** ** Taking does not disturb decoding *)

Section Independence.
Context {T : Type} {transport : Transport T}.

Lemma pass_ignores_slot (s1 s2 : loop_state T) :
  decoder_view s1 = decoder_view s2 ->
  decoder_view (loop_iteration s1) = decoder_view (loop_iteration s2).
Proof.
  destruct s1 as [[t1 run1 slot1] st1 wr1], s2 as [[t2 run2 slot2] st2 wr2].
  unfold decoder_view at 1 2. cbn [self ser is_running sync_state written].
  intros E. injection E as -> -> -> ->.
  unfold decoder_view.
  destruct st2 as [|[|[|st]]]; open_generic; quiet_cbn;
    repeat split_step; reflexivity.
Qed.

Lemma run_ignores_slot (n : nat) :
  forall s1 s2 : loop_state T,
    decoder_view s1 = decoder_view s2 ->
    decoder_view (while_running n s1) = decoder_view (while_running n s2).
Proof.
  induction n as [|n IH]; intros s1 s2 E; [exact E|].
  cbn [while_running].
  assert (Er : is_running (self s1) = is_running (self s2)).
  { unfold decoder_view in E. congruence. }
  rewrite Er. destruct (is_running (self s2)); [|exact E].
  apply IH, pass_ignores_slot, E.
Qed.

(** X21.  Polling does not disturb decoding: whether or not
    [get_latest_data] is called before the loop runs on, the loop reads the
    same bytes, goes through the same phases, stores the same records in
    the same order and stops or not just the same.  The slot is written by
    the loop and never read by it. *)
Theorem take_does_not_disturb_decoding
    (rcv : MaixCamReceiver T) (st : nat) (wr : list data) (n : nat) :
  decoder_view (while_running n (mk_loop (snd (get_latest_data rcv)) st wr))
  = decoder_view (while_running n (mk_loop rcv st wr)).
Proof. apply run_ignores_slot. reflexivity. Qed.

End Independence.
